(** * rsi-sniper: the streaming window and alert engine

  A shallow embedding of the two bots of the repository and the
  properties their specification states about them.

  - [Rsi] embeds the momentum bot (the file that imports
    [technicalindicators]): a 100-sample window of close prices per
    symbol, the RSI decision with its per-symbol alert state, and the
    shared alert queue.
  - [Volume] embeds the volume bot ([src/index.ts]): a 30-sample window
    of notional volumes per symbol and the stateless spike decision.
  - [Js] holds what both files take from the JavaScript runtime, and
    [Dispatch] the timer callback that both files carry verbatim.

  JavaScript numbers are IEEE 754 binary64 values; they are embedded as
  Rocq's primitive floats, so comparisons with NaN, [0/0] and rounding
  are those of the program. The [Record<string, ...>] objects that the
  program uses as per-symbol maps are embedded as [gmap string _], the
  own properties of the object. The objects are plain ones, so a read
  of a name they do not own finds the member that [Object.prototype]
  has under that name, if any: [Js.lazyWindow] is the read that the two
  handlers start with. An assignment stores an own property; the one
  name for which JavaScript replaces the prototype instead, [__proto__],
  is never assigned by a handler that has no window for it, nor by the
  backfill, whose names are the lower-cased symbols that end in USDT. *)

From Stdlib Require Import Floats Ascii.
From stdpp Require Import gmap strings list fin_maps pretty.

Set Default Proof Using "Type".

(* ===================================================================== *)
(** ** The JavaScript side                                                *)
(* ===================================================================== *)

Module Js.

(** Values produced by [JSON.parse]. An object is the list of its own
    properties. *)
#[warnings="-register-all"]
Inductive jsval : Type :=
| JUndefined
| JNull
| JBool (b : bool)
| JNum (n : float)
| JStr (s : string)
| JArr (items : list jsval)
| JObj (fields : list (string * jsval)).

(** What a [try] block can catch, and what a rejected promise carries. *)
Inductive JsError : Type :=
| SyntaxError
| TypeError
| RejectedSend.

(** An expression either throws or yields a value. *)
Definition Completion (A : Type) : Type := JsError + A.

#[export] Instance Completion_ret : MRet Completion := fun _ a => inr a.
#[export] Instance Completion_bind : MBind Completion :=
  fun _ _ f m => match m with inl e => inl e | inr a => f a end.

Definition throw {A : Type} (e : JsError) : Completion A := inl e.

(** Built-ins whose code is the engine's, not the repository's. *)
Class Runtime : Type := {
  (** [JSON.parse(raw.toString())]: [None] is the thrown SyntaxError. *)
  JSON_parse : string → option jsval;
  (** [parseFloat(v)]: converts [v] to a string first, which throws a
      TypeError for an object that shadows [toString]. *)
  parseFloat : jsval → Completion float;
  (** [n.toFixed(digits)] *)
  toFixed : float → nat → string;
  (** [s.toLowerCase()] and [s.toUpperCase()] *)
  toLowerCase : string → string;
  toUpperCase : string → string;
}.

Fixpoint ownProperty (key : string) (fields : list (string * jsval)) : jsval :=
  match fields with
  | [] => JUndefined
  | (k, v) :: rest => if String.eqb k key then v else ownProperty key rest
  end.

(** [v.key] for the keys the handlers read ([data], [s], [k], [x], [c],
    [v]): a TypeError on [undefined] and [null], the own property of an
    object, [undefined] on any other value. *)
Definition getProp (v : jsval) (key : string) : Completion jsval :=
  match v with
  | JUndefined | JNull => throw TypeError
  | JObj fields => mret (ownProperty key fields)
  | _ => mret JUndefined
  end.

(** [v.toLowerCase()]: only a string has the method. *)
Definition call_toLowerCase `{Runtime} (v : jsval) : Completion string :=
  match v with
  | JStr s => mret (toLowerCase s)
  | _ => throw TypeError
  end.

(** ToBoolean, as used by [!k.x]. *)
Definition truthy (v : jsval) : bool :=
  match v with
  | JUndefined | JNull => false
  | JBool b => b
  | JNum n => negb (PrimFloat.eqb n 0 || PrimFloat.is_nan n)
  | JStr s => negb (String.eqb s EmptyString)
  | JArr _ | JObj _ => true
  end.

(** The number that an array length is. *)
Definition number_of_nat (n : nat) : float :=
  PrimFloat.of_uint63 (Uint63.of_Z (Z.of_nat n)).

(** [a > b], [a < b], [a >= b], [a <= b] on numbers. *)
Definition gt (a b : float) : bool := PrimFloat.ltb b a.
Definition lt (a b : float) : bool := PrimFloat.ltb a b.
Definition ge (a b : float) : bool := PrimFloat.leb b a.
Definition le (a b : float) : bool := PrimFloat.leb a b.

Fixpoint dropChars (n : nat) (s : string) : string :=
  match n, s with
  | S n', String _ s' => dropChars n' s'
  | _, _ => s
  end.

(** [s.replace(pat, '')] with a string pattern: the first occurrence of
    [pat] is removed. *)
Fixpoint removeFirst (pat s : string) : string :=
  if String.prefix pat s then dropChars (String.length pat) s
  else match s with
       | EmptyString => EmptyString
       | String c s' => String c (removeFirst pat s')
       end.

(** The names that a plain object inherits from [Object.prototype]. *)
Definition objectPrototype : list string :=
  ["constructor"; "__defineGetter__"; "__defineSetter__"; "hasOwnProperty";
   "__lookupGetter__"; "__lookupSetter__"; "isPrototypeOf";
   "propertyIsEnumerable"; "toString"; "valueOf"; "__proto__";
   "toLocaleString"].

(** [windows[symbol] ||= []], up to the first array method called on its
    value. An own property is an array, which is truthy even when empty,
    and is the value. A name that [windows] does not own and
    [Object.prototype] has yields the inherited member: a function, or
    [Object.prototype] itself for [__proto__]; it is truthy, so nothing
    is assigned, and it has neither [push] nor [reduce], so the call
    throws a TypeError. Any other name is assigned the empty array. *)
Definition lazyWindow (windows : gmap string (list float)) (symbol : string)
    : Completion (list float) :=
  match windows !! symbol with
  | Some arr => mret arr
  | None =>
      if bool_decide (symbol ∈ objectPrototype) then throw TypeError else mret []
  end.

(** [xs.reduce((a, b) => a + b, 0)] *)
Definition total (xs : list float) : float := fold_left PrimFloat.add xs 0%float.

(** [arr.push(x); if (arr.length > cap) arr.shift();] *)
Definition pushBounded (cap : nat) (x : float) (arr : list float) : list float :=
  let arr' := arr ++ [x] in
  if cap <? length arr' then tail arr' else arr'.

End Js.

(* ===================================================================== *)
(** ** The alert queue and its timer                                      *)
(* ===================================================================== *)

Module Dispatch.
Import Js.

(** An element of [alertQueue]. *)
Record Alert : Type := { text : string }.

Inductive LogEntry : Type :=
| Log (line : string)
| LogError (label : string) (e : JsError).

(** The globals that the message handler and the timer share, and the
    two sinks: the calls made to [bot.sendMessage] and the console. *)
Record Outbox : Type := {
  alertQueue : list Alert;
  sent : list string;
  console : list LogEntry;
}.

Definition enqueue (a : Alert) (o : Outbox) : Outbox :=
  {| alertQueue := alertQueue o ++ [a]; sent := sent o; console := console o |}.

Definition consoleLog (line : string) (o : Outbox) : Outbox :=
  {| alertQueue := alertQueue o; sent := sent o; console := console o ++ [Log line] |}.

Definition consoleError (label : string) (e : JsError) (o : Outbox) : Outbox :=
  {| alertQueue := alertQueue o; sent := sent o;
     console := console o ++ [LogError label e] |}.

(** One run of the [setInterval] callback. [delivered] tells whether
    the promise of [bot.sendMessage] resolves; a rejection goes to
    [console.error] and nowhere else. *)
Definition drainTick (delivered : bool) (o : Outbox) : Outbox :=
  match alertQueue o with
  | [] => o
  | next :: rest =>
      let o' := {| alertQueue := rest;
                   sent := sent o ++ [text next];
                   console := console o |} in
      if delivered then o' else consoleError EmptyString RejectedSend o'
  end.

(** Successive timer runs, one delivery outcome each. *)
Definition drainTicks (outcomes : list bool) (o : Outbox) : Outbox :=
  fold_left (fun o delivered => drainTick delivered o) outcomes o.

(** The timer and the producers interleave on the event loop. *)
Inductive Event : Type :=
| Enqueue (a : Alert)
| Tick (delivered : bool).

Definition step (o : Outbox) (ev : Event) : Outbox :=
  match ev with
  | Enqueue a => enqueue a o
  | Tick delivered => drainTick delivered o
  end.

Definition run (evs : list Event) (o : Outbox) : Outbox := fold_left step evs o.

Definition enqueued (evs : list Event) : list Alert :=
  omap (fun ev => match ev with Enqueue a => Some a | Tick _ => None end) evs.

End Dispatch.

(* ===================================================================== *)
(** ** The momentum bot                                                   *)
(* ===================================================================== *)

Module Rsi.
Import Js Dispatch.

Definition rsiPeriod : nat := 15.
Definition rsiUpper : float := 80.
Definition rsiLower : float := 20.

(** The values of [lastAlert[symbol].type]. *)
Inductive AlertType : Type := high | low | null.

#[export] Instance AlertType_eq_dec : EqDecision AlertType.
Proof. solve_decision. Defined.

Record LastAlert : Type := { type : AlertType }.

(** The module-level variables, with the sinks of [Dispatch]. *)
Record State : Type := {
  closePrices : gmap string (list float);
  lastAlert : gmap string LastAlert;
  out : Outbox;
}.

Definition withOut (f : Outbox → Outbox) (st : State) : State :=
  {| closePrices := closePrices st; lastAlert := lastAlert st; out := f (out st) |}.

Definition setClosePrices (symbol : string) (arr : list float) (st : State) : State :=
  {| closePrices := <[symbol := arr]> (closePrices st);
     lastAlert := lastAlert st; out := out st |}.

Definition setLastAlert (symbol : string) (t : AlertType) (st : State) : State :=
  {| closePrices := closePrices st;
     lastAlert := <[symbol := {| type := t |}]> (lastAlert st); out := out st |}.

(** *** The indicator *)

(** Modelled from the spec: the gain and the loss of one price delta,
    for [RSI_calculate] below. *)
Definition gainOf (d : float) : float := if lt 0 d then d else 0%float.
Definition lossOf (d : float) : float := if lt d 0 then (- d)%float else 0%float.

(** Modelled from the spec: the deltas of successive prices. *)
Fixpoint deltas (prev : float) (values : list float) : list float :=
  match values with
  | [] => []
  | v :: rest => (v - prev)%float :: deltas v rest
  end.

(** Modelled from the spec: [100 - 100 / (1 + RS)], and [100] when the
    average loss is zero. *)
Definition rsiOf (avgGain avgLoss : float) : float :=
  if PrimFloat.eqb avgLoss 0 then 100%float
  else (100 - 100 / (1 + avgGain / avgLoss))%float.

(** Modelled from the spec: the smoothing with factor [1 / p] over the
    deltas that follow the seed, one value per delta. *)
Fixpoint smoothed (p avgGain avgLoss : float) (ds : list float) : list float :=
  match ds with
  | [] => []
  | d :: rest =>
      let g := ((avgGain * (p - 1) + gainOf d) / p)%float in
      let l := ((avgLoss * (p - 1) + lossOf d) / p)%float in
      rsiOf g l :: smoothed p g l rest
  end.

(** Modelled from the spec: [RSI.calculate] of the [technicalindicators]
    package, whose code is not part of the repository. Wilder's
    oscillator over the price deltas: nothing when fewer than [period + 1]
    prices are given; the average gain and loss are seeded by the simple
    average of the first [period] deltas and then smoothed with factor
    [1 / period]; the value is [100 - 100 / (1 + RS)] with
    [RS = avgGain / avgLoss], and [100] when [avgLoss] is zero. One value
    per price from the [period + 1]-th on. *)
Definition RSI_calculate (values : list float) (period : nat) : list float :=
  match values with
  | [] => []
  | first :: rest =>
      let ds := deltas first rest in
      if length ds <? period then []
      else
        let p := number_of_nat period in
        let seed := take period ds in
        let g := (total (gainOf <$> seed) / p)%float in
        let l := (total (lossOf <$> seed) / p)%float in
        rsiOf g l :: smoothed p g l (drop period ds)
  end.

(** *** Alerts *)

Definition sendRsiAlert `{Runtime} (symbol : string) (rsi price : float)
    (st : State) : State :=
  let status := if gt rsi rsiUpper then "🔴" else "🟢" in
  let alertType := if gt rsi rsiUpper then "high" else "low" in
  let base := removeFirst "USDT" (toUpperCase symbol) in
  let message :=
    status +:+ " *#" +:+ base +:+ "* RSI " +:+ alertType +:+ ": *"
      +:+ toFixed rsi 2 +:+ "* at $" +:+ toFixed price 2 in
  withOut (fun o => consoleLog ("📥 Queued alert: " +:+ message)
                      (enqueue {| text := message |} o)) st.

(** The decision taken on a defined [latest]: the three-armed
    conditional of the handler. [lastAlert[symbol] || { type: null }] is
    the stored entry or, without one, a value whose [type] is neither
    ['high'] nor ['low'] (an inherited member has no [type] at all). *)
Definition alertStep `{Runtime} (symbol : string) (latest close : float)
    (st : State) : State :=
  let alert := default {| type := null |} (lastAlert st !! symbol) in
  if gt latest rsiUpper && negb (bool_decide (type alert = high)) then
    setLastAlert symbol high (sendRsiAlert symbol latest close st)
  else if lt latest rsiLower && negb (bool_decide (type alert = low)) then
    setLastAlert symbol low (sendRsiAlert symbol latest close st)
  else if ge latest rsiLower && le latest rsiUpper then
    setLastAlert symbol null st
  else st.

(** [rsi.at(-1)] after the guard on the window length: the value handed
    to the decision, if any. *)
Definition latestRsi (arr : list float) : option float :=
  if rsiPeriod <=? length arr then last (RSI_calculate arr rsiPeriod) else None.

(** *** The message handler *)

(** What the handler reads from a message before it touches any state. *)
Inductive Decoded : Type :=
| Forming
| Closed (symbol : string) (close : float).

(** [msg.data.s.toLowerCase()] *)
Definition symbolOf `{Runtime} (raw : string) : Completion (jsval * string) :=
  msg ← from_option mret (throw SyntaxError) (JSON_parse raw);
  data ← getProp msg "data";
  s ← getProp data "s";
  symbol ← call_toLowerCase s;
  mret (data, symbol).

Definition decode `{Runtime} (raw : string) : Completion Decoded :=
  '(data, symbol) ← symbolOf raw;
  k ← getProp data "k";
  x ← getProp k "x";
  if negb (truthy x) then mret Forming
  else
    c ← getProp k "c";
    close ← parseFloat c;
    mret (Closed symbol close).

(** The [try] block from [arr.push(close)] on, [window] being the array
    that [closePrices[symbol] ||= []] evaluates to. *)
Definition onWindow `{Runtime} (symbol : string) (close : float)
    (window : list float) (st : State) : State :=
  let arr := pushBounded 100 close window in
  let st := setClosePrices symbol arr st in
  match latestRsi arr with
  | Some latest => alertStep symbol latest close st
  | None => st
  end.

(** The rest of the [try] block, for a closed candle: it throws, before
    it has changed anything, when [closePrices[symbol]] is a member
    inherited from [Object.prototype]. *)
Definition onClosed `{Runtime} (symbol : string) (close : float)
    (st : State) : Completion State :=
  window ← lazyWindow (closePrices st) symbol;
  mret (onWindow symbol close window st).

(** [ws.on('message', ...)]: the [try] block and its [catch]. *)
Definition onMessage `{Runtime} (raw : string) (st : State) : State :=
  let caught err := withOut (consoleError "❌ WebSocket message error:" err) st in
  match decode raw with
  | inl err => caught err
  | inr Forming => st
  | inr (Closed symbol close) =>
      match onClosed symbol close st with
      | inl err => caught err
      | inr st' => st'
      end
  end.

(** The handler over a stream of messages, in arrival order. *)
Definition onMessages `{Runtime} (raws : list string) (st : State) : State :=
  fold_left (fun st raw => onMessage raw st) raws st.

(** The symbol a message is for, when it gets as far as naming one. *)
Definition messageSymbol `{Runtime} (raw : string) : option string :=
  match symbolOf raw with
  | inr (_, symbol) => Some symbol
  | inl _ => None
  end.

(** *** The state machine alone *)

(** The decision fed with a sequence of metric values for one symbol;
    the result lists the length of the queue after each value. *)
Fixpoint feed `{Runtime} (symbol : string) (metrics : list float) (close : float)
    (st : State) : list nat :=
  match metrics with
  | [] => []
  | v :: rest =>
      let st' := alertStep symbol v close st in
      length (alertQueue (out st')) :: feed symbol rest close st'
  end.

Definition initial : State :=
  {| closePrices := ∅; lastAlert := ∅;
     out := {| alertQueue := []; sent := []; console := [] |} |}.

End Rsi.

(* ===================================================================== *)
(** ** The volume bot                                                     *)
(* ===================================================================== *)

Module Volume.
Import Js Dispatch.

Definition volumeMultiplier : float := 2.
Definition candleLimit : nat := 30.

Record State : Type := {
  volumeHistory : gmap string (list float);
  out : Outbox;
}.

Definition withOut (f : Outbox → Outbox) (st : State) : State :=
  {| volumeHistory := volumeHistory st; out := f (out st) |}.

Definition setVolumeHistory (symbol : string) (history : list float)
    (st : State) : State :=
  {| volumeHistory := <[symbol := history]> (volumeHistory st); out := out st |}.

Definition sendVolumeAlert `{Runtime} (symbol : string) (volumeUSD avgUSD : float)
    (st : State) : State :=
  let base := removeFirst "USDT" (toUpperCase symbol) in
  let msg :=
    "📢 *#" +:+ base +:+ "* high volume spike: *$"
      +:+ toFixed (volumeUSD / 1000)%float 4 +:+ "k*" in
  withOut (fun o => consoleLog ("📥 Queued volume alert: " +:+ msg)
                      (enqueue {| text := msg |} o)) st.

(** [history.reduce((a, b) => a + b, 0) / history.length] *)
Definition average (history : list float) : float :=
  (total history / number_of_nat (length history))%float.

(** The condition of the [if] that guards [sendVolumeAlert]. *)
Definition spike (history : list float) (volumeUSD : float) : bool :=
  (candleLimit <=? length history)
  && ge volumeUSD (volumeMultiplier * average history)%float
  && ge volumeUSD 50000.

Inductive Decoded : Type :=
| Forming
| Closed (symbol : string) (close volume : float).

Definition symbolOf `{Runtime} (raw : string) : Completion (jsval * string) :=
  msg ← from_option mret (throw SyntaxError) (JSON_parse raw);
  data ← getProp msg "data";
  s ← getProp data "s";
  symbol ← call_toLowerCase s;
  mret (data, symbol).

Definition decode `{Runtime} (raw : string) : Completion Decoded :=
  '(data, symbol) ← symbolOf raw;
  k ← getProp data "k";
  x ← getProp k "x";
  if negb (truthy x) then mret Forming
  else
    c ← getProp k "c";
    close ← parseFloat c;
    v ← getProp k "v";
    volume ← parseFloat v;
    mret (Closed symbol close volume).

(** The [try] block from [history.reduce(...)] on, [history] being the
    array that [volumeHistory[symbol] ||= []] evaluates to. *)
Definition onWindow `{Runtime} (symbol : string) (close volume : float)
    (history : list float) (st : State) : State :=
  let volumeUSD := (volume * close)%float in
  let avg := average history in
  let st := withOut (consoleLog
    ("📊 " +:+ toUpperCase symbol +:+ " - Volume: $"
       +:+ toFixed (volumeUSD / 1000)%float 2 +:+ "k, Avg: $"
       +:+ toFixed (avg / 1000)%float 2 +:+ "k")) st in
  let st := if spike history volumeUSD
            then sendVolumeAlert symbol volumeUSD avg st else st in
  setVolumeHistory symbol (pushBounded candleLimit volumeUSD history) st.

(** The rest of the [try] block, for a closed candle: it throws, before
    it has logged or changed anything, when [volumeHistory[symbol]] is a
    member inherited from [Object.prototype]. *)
Definition onClosed `{Runtime} (symbol : string) (close volume : float)
    (st : State) : Completion State :=
  history ← lazyWindow (volumeHistory st) symbol;
  mret (onWindow symbol close volume history st).

Definition onMessage `{Runtime} (raw : string) (st : State) : State :=
  let caught err := withOut (consoleError "❌ WS message error:" err) st in
  match decode raw with
  | inl err => caught err
  | inr Forming => st
  | inr (Closed symbol close volume) =>
      match onClosed symbol close volume st with
      | inl err => caught err
      | inr st' => st'
      end
  end.

Definition onMessages `{Runtime} (raws : list string) (st : State) : State :=
  fold_left (fun st raw => onMessage raw st) raws st.

Definition messageSymbol `{Runtime} (raw : string) : option string :=
  match symbolOf raw with
  | inr (_, symbol) => Some symbol
  | inl _ => None
  end.

Definition initial : State :=
  {| volumeHistory := ∅;
     out := {| alertQueue := []; sent := []; console := [] |} |}.

End Volume.

(* ===================================================================== *)
(** ** Vocabulary of the properties                                       *)
(* ===================================================================== *)

Module Props.
Import Js Dispatch.

(** The [n] most recent elements of [l], in arrival order. *)
Definition lastN {A : Type} (n : nat) (l : list A) : list A :=
  drop (length l - n) l.

(** The handler's read of [windows[symbol]] finds an array: a stored
    one, or none under a name that [Object.prototype] does not have. *)
Definition readable (windows : gmap string (list float)) (symbol : string) : Prop :=
  is_Some (windows !! symbol) ∨ symbol ∉ objectPrototype.

#[export] Instance readable_dec windows symbol : Decision (readable windows symbol).
Proof. unfold readable. apply _. Defined.

(** The arithmetic mean in the words of the specification: the sum of
    the samples, taken in order from zero, divided by their number. *)
Fixpoint sumFrom (acc : float) (samples : list float) : float :=
  match samples with
  | [] => acc
  | x :: rest => sumFrom (acc + x)%float rest
  end.

Definition mean (samples : list float) : float :=
  (sumFrom 0 samples
     / PrimFloat.of_uint63 (Uint63.of_Z (Z.of_nat (length samples))))%float.

(** The closes of the closed candles that a stream carries for [symbol],
    in arrival order: what the handler pushes on a window that it can
    read. *)
Definition closesFor `{Runtime} (symbol : string) (raws : list string) : list float :=
  omap (fun raw =>
          match Rsi.decode raw with
          | inr (Rsi.Closed s close) =>
              if bool_decide (s = symbol) then Some close else None
          | _ => None
          end) raws.

(** The notional volumes of the closed candles that a stream carries for
    [symbol], in arrival order. *)
Definition volumesFor `{Runtime} (symbol : string) (raws : list string) : list float :=
  omap (fun raw =>
          match Volume.decode raw with
          | inr (Volume.Closed s close volume) =>
              if bool_decide (s = symbol) then Some (volume * close)%float else None
          | _ => None
          end) raws.

(** Every stored window is within [cap]. *)
Definition bounded (cap : nat) (windows : gmap string (list float)) : Prop :=
  ∀ symbol w, windows !! symbol = Some w → length w ≤ cap.

(** The alert state of [symbol]: the type its [lastAlert] entry holds,
    [null] when it has none. *)
Definition alertState (symbol : string) (st : Rsi.State) : Rsi.AlertType :=
  Rsi.type (default {| Rsi.type := Rsi.null |} (Rsi.lastAlert st !! symbol)).

(** The state of the momentum bot that belongs to [symbol]. *)
Definition rsiView (symbol : string) (st : Rsi.State)
    : option (list float) * option Rsi.LastAlert :=
  (Rsi.closePrices st !! symbol, Rsi.lastAlert st !! symbol).

(** The state of the volume bot that belongs to [symbol]. *)
Definition volumeView (symbol : string) (st : Volume.State) : option (list float) :=
  Volume.volumeHistory st !! symbol.

(** The alerts that one message adds to the queue. *)
Definition rsiEmitted `{Runtime} (raw : string) (st : Rsi.State) : list Alert :=
  drop (length (alertQueue (Rsi.out st))) (alertQueue (Rsi.out (Rsi.onMessage raw st))).

Definition volumeEmitted `{Runtime} (raw : string) (st : Volume.State) : list Alert :=
  drop (length (alertQueue (Volume.out st)))
       (alertQueue (Volume.out (Volume.onMessage raw st))).

(** The alerts that the messages of [symbol] add to the queue along a
    stream. *)
Fixpoint rsiContributions `{Runtime} (symbol : string) (raws : list string)
    (st : Rsi.State) : list Alert :=
  match raws with
  | [] => []
  | raw :: rest =>
      (if bool_decide (Rsi.messageSymbol raw = Some symbol)
       then rsiEmitted raw st else [])
        ++ rsiContributions symbol rest (Rsi.onMessage raw st)
  end.

Fixpoint volumeContributions `{Runtime} (symbol : string) (raws : list string)
    (st : Volume.State) : list Alert :=
  match raws with
  | [] => []
  | raw :: rest =>
      (if bool_decide (Volume.messageSymbol raw = Some symbol)
       then volumeEmitted raw st else [])
        ++ volumeContributions symbol rest (Volume.onMessage raw st)
  end.

(** The messages of a stream that are for [symbol]. *)
Definition rsiMessagesOf `{Runtime} (symbol : string) (raws : list string) : list string :=
  filter (fun raw => Rsi.messageSymbol raw = Some symbol) raws.

Definition volumeMessagesOf `{Runtime} (symbol : string) (raws : list string)
    : list string :=
  filter (fun raw => Volume.messageSymbol raw = Some symbol) raws.

End Props.

(* ===================================================================== *)
(** ** A runtime and frames for the examples                              *)
(* ===================================================================== *)

Module Sample.
Import Js Dispatch.

(** A combined-stream frame as [JSON.parse] returns it: the candle
    [msg.data.k], the payload [msg.data] and the frame. *)
Definition candle (closed : bool) (close volume : string) : jsval :=
  JObj [("x", JBool closed); ("c", JStr close); ("v", JStr volume)].

Definition payload (symbol : string) (k : jsval) : jsval :=
  JObj [("s", JStr symbol); ("k", k)].

Definition kline (symbol : string) (closed : bool) (close volume : string) : jsval :=
  JObj [("stream", JStr "kline");
        ("data", payload symbol (candle closed close volume))].

(** The frames are named; anything else is not JSON. *)
Definition frames : list (string * jsval) :=
  [("btc-closed", kline "BTCUSDT" true "100" "600");
   ("btc-forming", kline "BTCUSDT" false "101" "5");
   ("eth-closed", kline "ETHUSDT" true "7" "3");
   ("eth-no-kline", JObj [("data", JObj [("s", JStr "ETHUSDT")])]);
   ("constructor-closed", kline "CONSTRUCTOR" true "100" "600")].

Fixpoint lookupFrame (raw : string) (table : list (string * jsval)) : option jsval :=
  match table with
  | [] => None
  | (name, v) :: rest => if String.eqb name raw then Some v else lookupFrame raw rest
  end.

Definition digit (c : ascii) : option nat :=
  let n := nat_of_ascii c in
  if (48 <=? n) && (n <=? 57) then Some (n - 48) else None.

Fixpoint digits (acc : nat) (s : string) : option nat :=
  match s with
  | EmptyString => Some acc
  | String c rest =>
      match digit c with
      | Some d => digits (10 * acc + d) rest
      | None => None
      end
  end.

(** [parseFloat] on the values of the frames: a string of decimal digits
    is the integer it writes, other primitives are not numbers. *)
Definition parseDigits (v : jsval) : Completion float :=
  match v with
  | JNum n => inr n
  | JStr (String c rest) =>
      match digits 0 (String c rest) with
      | Some n => inr (number_of_nat n)
      | None => inr PrimFloat.nan
      end
  | JObj fields =>
      match ownProperty "toString" fields with
      | JUndefined => inr PrimFloat.nan
      | _ => throw TypeError
      end
  | _ => inr PrimFloat.nan
  end.

Definition mapAscii (f : ascii → ascii) : string → string :=
  fix go s :=
    match s with
    | EmptyString => EmptyString
    | String c rest => String (f c) (go rest)
    end.

Definition lower (c : ascii) : ascii :=
  let n := nat_of_ascii c in
  if (65 <=? n) && (n <=? 90) then ascii_of_nat (n + 32) else c.

Definition upper (c : ascii) : ascii :=
  let n := nat_of_ascii c in
  if (97 <=? n) && (n <=? 122) then ascii_of_nat (n - 32) else c.

#[export] Instance runtime : Runtime := {|
  JSON_parse raw := lookupFrame raw frames;
  parseFloat := parseDigits;
  toFixed _ _ := "0.00";
  toLowerCase := mapAscii lower;
  toUpperCase := mapAscii upper;
|}.

(** A full window of thirty quiet candles for one symbol. *)
Definition quiet : Volume.State :=
  {| Volume.volumeHistory := {[ "btcusdt" := replicate 30 10000%float ]};
     Volume.out := {| alertQueue := []; sent := []; console := [] |} |}.

(** Sixteen rising closes: the shortest window with a defined RSI. *)
Definition rising : Rsi.State :=
  {| Rsi.closePrices := {[ "btcusdt" := number_of_nat <$> seq 1 15 ]};
     Rsi.lastAlert := ∅;
     Rsi.out := {| alertQueue := []; sent := []; console := [] |} |}.

End Sample.

(* ===================================================================== *)
(** ** Start-up: the symbol universe, the backfill, the stream            *)
(* ===================================================================== *)

Module Text.
Import Js.

(** [s.endsWith(suffix)] *)
Definition endsWith (suffix s : string) : bool :=
  (String.length suffix <=? String.length s)
  && String.eqb (dropChars (String.length s - String.length suffix) s) suffix.

(** [list.includes(x)] on an array of strings. *)
Definition includes (x : string) (l : list string) : bool :=
  existsb (String.eqb x) l.

(** [parts.join(sep)] on an array of strings. *)
Fixpoint join (sep : string) (parts : list string) : string :=
  match parts with
  | [] => EmptyString
  | p :: rest =>
      match rest with
      | [] => p
      | _ :: _ => p +:+ sep +:+ join sep rest
      end
  end.

(** [arr.slice(from, to)] for [from <= to]. *)
Definition slice {A : Type} (from to : nat) (arr : list A) : list A :=
  take (to - from) (drop from arr).

End Text.

(** [getTopSymbols], the same in both files, from the body of the
    ticker response on. *)
Module Universe.
Import Js Text.

Record Ticker24h : Type := { symbol : string; quoteVolume : string }.

Definition stablecoins : list string :=
  ["USDC"; "DAI"; "BUSD"; "TUSD"; "FDUSD"; "USDP"; "USTC"; "USDD"].

(** [parseFloat(t.quoteVolume)]; [parseFloat] does not throw on a
    string. *)
Definition volumeOf `{Runtime} (t : Ticker24h) : float :=
  match parseFloat (JStr (quoteVolume t)) with
  | inr v => v
  | inl _ => PrimFloat.nan
  end.

(** The comparator handed to [sort]. *)
Definition byVolume `{Runtime} (a b : Ticker24h) : float :=
  (volumeOf b - volumeOf a)%float.

(** The two [filter] calls. *)
Definition quotedInUSDT (t : Ticker24h) : bool := endsWith "USDT" (symbol t).

Definition notStable (t : Ticker24h) : bool :=
  let base := removeFirst "USDT" (symbol t) in
  negb (includes base stablecoins).

Section Sorting.
Context `{Runtime}.
(** [Array.prototype.sort] with a comparator, as the engine has it. *)
Variable sort : (Ticker24h → Ticker24h → float) → list Ticker24h → list Ticker24h.

Definition getTopSymbols (limit : nat) (data : list Ticker24h) : list string :=
  (fun t => toLowerCase (symbol t))
    <$> take limit (sort byVolume (List.filter notStable (List.filter quotedInUSDT data))).

End Sorting.

End Universe.

(** The [for] loop of [preloadAll], the same in both files. *)
Module Batching.
Import Text.

Definition batchSize : nat := 20.

(** The loop from index [i] on; [fuel] bounds the number of rounds. *)
Fixpoint batchLoop {A : Type} (fuel i : nat) (symbols : list A) : list (list A) :=
  match fuel with
  | 0 => []
  | S fuel' =>
      if i <? length symbols
      then slice i (i + batchSize) symbols :: batchLoop fuel' (i + batchSize) symbols
      else []
  end.

(** The batches of the loop, in order: one round per symbol is more
    than the loop ever takes. *)
Definition batches {A : Type} (symbols : list A) : list (list A) :=
  batchLoop (length symbols) 0 symbols.

End Batching.

(** What start-up leaves behind: the bot's state, the lines of
    [console.warn], the pauses taken between batches (of [delayMs]
    each), and the URL of the socket once it is opened. *)
Module RsiBoot.
Import Js Dispatch Text Universe Batching.

Definition numberCoins : nat := 100.

Record Boot : Type := {
  state : Rsi.State;
  warned : list string;
  pauses : nat;
  stream : option string;
}.

Definition withState (f : Rsi.State → Rsi.State) (b : Boot) : Boot :=
  {| state := f (state b); warned := warned b; pauses := pauses b; stream := stream b |}.

Definition consoleWarn (line : string) (b : Boot) : Boot :=
  {| state := state b; warned := warned b ++ [line]; pauses := pauses b;
     stream := stream b |}.

(** [await sleep(delayMs)] *)
Definition sleep (b : Boot) : Boot :=
  {| state := state b; warned := warned b; pauses := S (pauses b); stream := stream b |}.

(** A kline response: [None] when the request fails, else the rows. *)
Definition Klines : Type := option (list (list jsval)).

(** [res.data.map(k => parseFloat(k[4]))] *)
Definition closesOf `{Runtime} (rows : list (list jsval)) : Completion (list float) :=
  mapM (fun k => parseFloat (default JUndefined (k !! 4))) rows.

Definition preloadCloses `{Runtime} (symbol : string) (response : Klines)
    (b : Boot) : Boot :=
  let failed := consoleWarn ("⚠️ Failed to preload " +:+ toUpperCase symbol) b in
  match response with
  | None => failed
  | Some rows =>
      match closesOf rows with
      | inl _ => failed
      | inr closes =>
          withState (fun st =>
            Rsi.withOut (consoleLog ("✅ Preloaded " +:+ toUpperCase symbol))
              (Rsi.setClosePrices symbol closes st)) b
      end
  end.

(** [await Promise.all(batch.map(preloadCloses))], the requests
    completing in the order of the batch. *)
Definition preloadBatch `{Runtime} (responses : string → Klines)
    (batch : list string) (b : Boot) : Boot :=
  fold_left (fun b symbol => preloadCloses symbol (responses symbol) b) batch b.

Definition preloadAll `{Runtime} (symbols : list string)
    (responses : string → Klines) (b : Boot) : Boot :=
  let b := withState (Rsi.withOut (consoleLog
             ("⏳ Preloading closes for " +:+ pretty (length symbols)
                +:+ " symbols in batches..."))) b in
  let b := fold_left (fun b batch => sleep (preloadBatch responses batch b))
             (batches symbols) b in
  withState (Rsi.withOut (consoleLog "✅ All preloading done.")) b.

Definition buildCombinedStreamUrl (symbols : list string) : string :=
  let streams := join "/" ((fun s => s +:+ "@kline_1m") <$> symbols) in
  "wss://stream.binance.com:9443/stream?streams=" +:+ streams.

(** [startWebSocket]: the socket is opened on the combined URL; its
    message callback is [Rsi.onMessage]. *)
Definition startWebSocket (symbols : list string) (b : Boot) : Boot :=
  {| state := state b; warned := warned b; pauses := pauses b;
     stream := Some (buildCombinedStreamUrl symbols) |}.

(** A direct call of [bot.sendMessage]. *)
Definition sendMessage (line : string) (o : Outbox) : Outbox :=
  {| alertQueue := alertQueue o; sent := sent o ++ [line]; console := console o |}.

Section Main.
Context `{Runtime}.
Variable sort : (Ticker24h → Ticker24h → float) → list Ticker24h → list Ticker24h.

(** [main]: [tickers] is the outcome of the ticker request,
    [responses] that of each kline request, [adminDelivered] whether
    the start-up notice gets through. *)
Definition main (tickers : Completion (list Ticker24h))
    (responses : string → Klines) (adminDelivered : bool) (b : Boot) : Boot :=
  let failed err :=
    withState (Rsi.withOut (consoleError "❌ Bot startup error:" err)) in
  match tickers with
  | inl err => failed err b
  | inr data =>
      let symbols := getTopSymbols sort numberCoins data in
      let b := preloadAll symbols responses b in
      let b := withState (Rsi.withOut (sendMessage
                 ("🤖 RSI bot started. Tracking " +:+ pretty (length symbols)
                    +:+ " coins."))) b in
      if adminDelivered then startWebSocket symbols b
      else failed RejectedSend b
  end.

End Main.

Definition initial : Boot :=
  {| state := Rsi.initial; warned := []; pauses := 0; stream := None |}.

(** The two callbacks that run once the socket is open. *)
Inductive LoopEvent : Type :=
| Message (raw : string)
| Timer (delivered : bool).

Definition loopStep `{Runtime} (st : Rsi.State) (ev : LoopEvent) : Rsi.State :=
  match ev with
  | Message raw => Rsi.onMessage raw st
  | Timer delivered => Rsi.withOut (drainTick delivered) st
  end.

Definition loop `{Runtime} (evs : list LoopEvent) (st : Rsi.State) : Rsi.State :=
  fold_left loopStep evs st.

End RsiBoot.

Module VolumeBoot.
Import Js Dispatch Text Universe Batching.

Definition numberCoins : nat := 100.
Definition interval : string := "15m".

Record Boot : Type := {
  state : Volume.State;
  warned : list string;
  pauses : nat;
  stream : option string;
}.

Definition withState (f : Volume.State → Volume.State) (b : Boot) : Boot :=
  {| state := f (state b); warned := warned b; pauses := pauses b; stream := stream b |}.

Definition consoleWarn (line : string) (b : Boot) : Boot :=
  {| state := state b; warned := warned b ++ [line]; pauses := pauses b;
     stream := stream b |}.

(** [await new Promise(resolve => setTimeout(resolve, delayMs))] *)
Definition sleep (b : Boot) : Boot :=
  {| state := state b; warned := warned b; pauses := S (pauses b); stream := stream b |}.

Definition Klines : Type := option (list (list jsval)).

(** [res.data.map(k => parseFloat(k[5]) * parseFloat(k[4]))] *)
Definition volumesOf `{Runtime} (rows : list (list jsval)) : Completion (list float) :=
  mapM (fun k =>
          volume ← parseFloat (default JUndefined (k !! 5));
          close ← parseFloat (default JUndefined (k !! 4));
          mret (volume * close)%float) rows.

Definition preloadVolumes `{Runtime} (symbol : string) (response : Klines)
    (b : Boot) : Boot :=
  let failed := consoleWarn ("⚠️ Failed to preload " +:+ toUpperCase symbol) b in
  match response with
  | None => failed
  | Some rows =>
      match volumesOf rows with
      | inl _ => failed
      | inr volumes =>
          withState (fun st =>
            Volume.withOut (consoleLog ("✅ Preloaded volume for " +:+ toUpperCase symbol))
              (Volume.setVolumeHistory symbol volumes st)) b
      end
  end.

Definition preloadBatch `{Runtime} (responses : string → Klines)
    (batch : list string) (b : Boot) : Boot :=
  fold_left (fun b symbol => preloadVolumes symbol (responses symbol) b) batch b.

Definition preloadAll `{Runtime} (symbols : list string)
    (responses : string → Klines) (b : Boot) : Boot :=
  fold_left (fun b batch => sleep (preloadBatch responses batch b)) (batches symbols) b.

Definition buildCombinedStreamUrl (symbols : list string) : string :=
  let streams := join "/" ((fun s => s +:+ "@kline_" +:+ interval) <$> symbols) in
  "wss://stream.binance.com:9443/stream?streams=" +:+ streams.

Definition startWebSocket (symbols : list string) (b : Boot) : Boot :=
  {| state := state b; warned := warned b; pauses := pauses b;
     stream := Some (buildCombinedStreamUrl symbols) |}.

Section Main.
Context `{Runtime}.
Variable sort : (Ticker24h → Ticker24h → float) → list Ticker24h → list Ticker24h.

Definition main (tickers : Completion (list Ticker24h))
    (responses : string → Klines) (adminDelivered : bool) (b : Boot) : Boot :=
  let failed err :=
    withState (Volume.withOut (consoleError "❌ Startup error:" err)) in
  match tickers with
  | inl err => failed err b
  | inr data =>
      let symbols := getTopSymbols sort numberCoins data in
      let b := preloadAll symbols responses b in
      let b := withState (Volume.withOut (RsiBoot.sendMessage
                 ("🤖 Volume alert bot started for " +:+ pretty (length symbols)
                    +:+ " pairs."))) b in
      if adminDelivered then startWebSocket symbols b
      else failed RejectedSend b
  end.

End Main.

Definition initial : Boot :=
  {| state := Volume.initial; warned := []; pauses := 0; stream := None |}.

Definition loopStep `{Runtime} (st : Volume.State) (ev : RsiBoot.LoopEvent)
    : Volume.State :=
  match ev with
  | RsiBoot.Message raw => Volume.onMessage raw st
  | RsiBoot.Timer delivered => Volume.withOut (drainTick delivered) st
  end.

Definition loop `{Runtime} (evs : list RsiBoot.LoopEvent) (st : Volume.State)
    : Volume.State :=
  fold_left loopStep evs st.

End VolumeBoot.

(** Vocabulary of the start-up and event-loop properties. *)
Module BootProps.
Import Js Dispatch Props.

(** The alerts that the message callbacks enqueue along a run of the
    event loop, in order. *)
Fixpoint rsiProduced `{Runtime} (evs : list RsiBoot.LoopEvent) (st : Rsi.State)
    : list Alert :=
  match evs with
  | [] => []
  | ev :: rest =>
      match ev with
      | RsiBoot.Message raw => rsiEmitted raw st
      | RsiBoot.Timer _ => []
      end ++ rsiProduced rest (RsiBoot.loopStep st ev)
  end.

Fixpoint volumeProduced `{Runtime} (evs : list RsiBoot.LoopEvent) (st : Volume.State)
    : list Alert :=
  match evs with
  | [] => []
  | ev :: rest =>
      match ev with
      | RsiBoot.Message raw => volumeEmitted raw st
      | RsiBoot.Timer _ => []
      end ++ volumeProduced rest (VolumeBoot.loopStep st ev)
  end.

(** The message callbacks and the timer ticks of a run. *)
Definition messages (evs : list RsiBoot.LoopEvent) : nat :=
  length (List.filter (fun ev => match ev with
                                 | RsiBoot.Message _ => true
                                 | RsiBoot.Timer _ => false
                                 end) evs).

Definition ticks (evs : list RsiBoot.LoopEvent) : nat :=
  length (List.filter (fun ev => match ev with
                                 | RsiBoot.Message _ => false
                                 | RsiBoot.Timer _ => true
                                 end) evs).

(** A number that is not a number. *)
Definition isNaN (x : float) : Prop := PrimFloat.is_nan x = true.

(** The window that a kline response seeds: none when the request
    fails or a row does not parse. *)
Definition rsiBackfill `{Runtime} (response : RsiBoot.Klines) : option (list float) :=
  match response with
  | Some rows =>
      match RsiBoot.closesOf rows with
      | inr closes => Some closes
      | inl _ => None
      end
  | None => None
  end.

Definition volumeBackfill `{Runtime} (response : VolumeBoot.Klines)
    : option (list float) :=
  match response with
  | Some rows =>
      match VolumeBoot.volumesOf rows with
      | inr volumes => Some volumes
      | inl _ => None
      end
  | None => None
  end.

(** Seeding the window of one symbol in the map of windows. *)
Definition seed (backfill : string → option (list float))
    (windows : gmap string (list float)) (symbol : string)
    : gmap string (list float) :=
  match backfill symbol with
  | Some w => <[symbol := w]> windows
  | None => windows
  end.

(** The number of batches of twenty that [n] symbols make. *)
Definition batchCount (n : nat) : nat := (n + 19) / 20.

(** Two start-up states that differ at most in windows, console,
    warnings and pauses: same alert states, same queue, same sends,
    same stream. *)
Definition rsiSameRest (b b' : RsiBoot.Boot) : Prop :=
  Rsi.lastAlert (RsiBoot.state b') = Rsi.lastAlert (RsiBoot.state b)
  ∧ alertQueue (Rsi.out (RsiBoot.state b')) = alertQueue (Rsi.out (RsiBoot.state b))
  ∧ sent (Rsi.out (RsiBoot.state b')) = sent (Rsi.out (RsiBoot.state b))
  ∧ RsiBoot.stream b' = RsiBoot.stream b.

Definition volumeSameRest (b b' : VolumeBoot.Boot) : Prop :=
  alertQueue (Volume.out (VolumeBoot.state b'))
    = alertQueue (Volume.out (VolumeBoot.state b))
  ∧ sent (Volume.out (VolumeBoot.state b')) = sent (Volume.out (VolumeBoot.state b))
  ∧ VolumeBoot.stream b' = VolumeBoot.stream b.

End BootProps.

(** More states and frames for the examples. *)
Module BootSample.
Import Js Dispatch.

(** A backfill of a hundred and two closes, and one of thirty-one
    volumes. *)
Definition overfull : Rsi.State :=
  {| Rsi.closePrices := {[ "btcusdt" := replicate 102 50%float ]};
     Rsi.lastAlert := ∅;
     Rsi.out := {| alertQueue := []; sent := []; console := [] |} |}.

Definition overfullVolume : Volume.State :=
  {| Volume.volumeHistory := {[ "btcusdt" := replicate 31 10000%float ]};
     Volume.out := {| alertQueue := []; sent := []; console := [] |} |}.

(** Thirty candles, one of them not a number. *)
Definition poisoned : Volume.State :=
  {| Volume.volumeHistory :=
       {[ "btcusdt" := PrimFloat.nan :: replicate 29 10000%float ]};
     Volume.out := {| alertQueue := []; sent := []; console := [] |} |}.

(** An insertion sort by the sign of the comparator, for [sort]. *)
Fixpoint insertBy {A : Type} (cmp : A → A → float) (a : A) (l : list A) : list A :=
  match l with
  | [] => [a]
  | b :: rest => if le (cmp a b) 0 then a :: l else b :: insertBy cmp a rest
  end.

Definition sortBy {A : Type} (cmp : A → A → float) (l : list A) : list A :=
  foldr (insertBy cmp) [] l.

(** A ticker response: two pairs against USDT, a stablecoin and a pair
    in another quote. *)
Definition tickers : list Universe.Ticker24h :=
  [ {| Universe.symbol := "BTCUSDT"; Universe.quoteVolume := "900" |};
    {| Universe.symbol := "USDCUSDT"; Universe.quoteVolume := "800" |};
    {| Universe.symbol := "ETHBTC"; Universe.quoteVolume := "700" |};
    {| Universe.symbol := "ETHUSDT"; Universe.quoteVolume := "950" |} ].

(** A row of a kline response: open time, open, high, low, close,
    volume. *)
Definition row (close volume : string) : list jsval :=
  [JNum 0; JStr "1"; JStr "2"; JStr "1"; JStr close; JStr volume].

(** The kline responses: two rows for BTC, a failed request for every
    other symbol. *)
Definition responses (symbol : string) : option (list (list jsval)) :=
  if String.eqb symbol "btcusdt" then Some [row "10" "5"; row "11" "6"] else None.

End BootSample.

(** Vocabulary for names and URLs. *)
Module TextProps.
Import Js Text.

(** [pat] occurs somewhere in [s]. *)
Fixpoint occursIn (pat s : string) : bool :=
  String.prefix pat s
  || match s with
     | EmptyString => false
     | String _ rest => occursIn pat rest
     end.

(** The character [c] occurs in [s]. *)
Fixpoint hasChar (c : ascii) (s : string) : bool :=
  match s with
  | EmptyString => false
  | String d rest => Ascii.eqb d c || hasChar c rest
  end.

(** [s] cut at every [sep], the way [s.split(sep)] cuts. *)
Fixpoint splitOn (sep : ascii) (s : string) : list string :=
  match s with
  | EmptyString => [EmptyString]
  | String c rest =>
      if Ascii.eqb c sep then EmptyString :: splitOn sep rest
      else match splitOn sep rest with
           | [] => [String c EmptyString]
           | part :: parts => String c part :: parts
           end
  end.

(** [s] without its last [n] characters. *)
Definition dropLast (n : nat) (s : string) : string :=
  String.substring 0 (String.length s - n) s.

(** Reading a combined-stream URL back: the streams after the fixed
    head, each without the [suffix] that names the kline interval. *)
Definition streamsOf (suffix url : string) : list string :=
  dropLast (String.length suffix)
    <$> splitOn "/" (dropChars
                       (String.length "wss://stream.binance.com:9443/stream?streams=")
                       url).

(** The tickers that pass the two filters of [getTopSymbols]. *)
Definition eligible (data : list Universe.Ticker24h) : list Universe.Ticker24h :=
  List.filter Universe.notStable (List.filter Universe.quotedInUSDT data).

End TextProps.

(* ===================================================================== *)
(** ** Properties                                                         *)
(* ===================================================================== *)

Import Js Dispatch Props.

(** *** Order on numbers *)

Lemma SFcompare_antisym (a b : spec_float) (c : comparison) :
  SFcompare a b = Some c → SFcompare b a = Some (CompOpp c).
Proof.
  destruct a as [sa|sa| |sa ma ea], b as [sb|sb| |sb mb eb]; simpl;
    try destruct sa; try destruct sb; intros [= <-]; try reflexivity.
  all: rewrite (Z.compare_antisym ea eb); destruct (ea ?= eb)%Z; simpl; try reflexivity.
  all: rewrite ?Pos.compare_cont_antisym; simpl; try reflexivity.
  all: by rewrite ?CompOpp_involutive.
Qed.

Lemma le_not_gt (x y : float) : le x y = true → gt x y = false.
Proof.
  unfold le, gt. rewrite leb_spec, ltb_spec. unfold SFleb, SFltb.
  destruct (SFcompare (Prim2SF x) (Prim2SF y)) as [c|] eqn:E; [|done].
  rewrite (SFcompare_antisym _ _ _ E). by destruct c.
Qed.

Lemma ge_not_lt (x y : float) : ge x y = true → lt x y = false.
Proof.
  unfold ge, lt. rewrite leb_spec, ltb_spec. unfold SFleb, SFltb.
  destruct (SFcompare (Prim2SF y) (Prim2SF x)) as [c|] eqn:E; [|done].
  rewrite (SFcompare_antisym _ _ _ E). by destruct c.
Qed.

(** A value above the upper threshold is not below the lower one. *)
Lemma above_upper_not_below_lower (v : float) :
  gt v Rsi.rsiUpper = true → lt v Rsi.rsiLower = false.
Proof.
  unfold gt, lt. rewrite !ltb_spec. unfold SFltb.
  let u := eval vm_compute in (Prim2SF Rsi.rsiUpper) in
  change (Prim2SF Rsi.rsiUpper) with u.
  let l := eval vm_compute in (Prim2SF Rsi.rsiLower) in
  change (Prim2SF Rsi.rsiLower) with l.
  destruct (Prim2SF v) as [s|s| |s m e]; cbv beta iota delta [SFcompare];
    try destruct s; try done.
  destruct (Z.compare_spec (-46) e), (Z.compare_spec e (-48)); try done; lia.
Qed.

(** *** Windows *)

Section Windows.
Context {A : Type}.
Implicit Types (l w : list A) (cap n : nat).

Lemma lastN_length cap l : length (lastN cap l) ≤ cap.
Proof. unfold lastN. rewrite length_drop. lia. Qed.

Lemma lastN_fits cap l : length l ≤ cap → lastN cap l = l.
Proof. intros Hle. unfold lastN. by replace (length l - cap) with 0 by lia. Qed.

Lemma tail_drop n l : tail (drop n l) = drop (S n) l.
Proof.
  revert l. induction n as [|n IH]; intros [|a l]; simpl; done.
Qed.

End Windows.

Lemma pushBounded_lastN (cap : nat) (x : float) (l : list float) :
  pushBounded cap x (lastN cap l) = lastN cap (l ++ [x]).
Proof.
  unfold pushBounded, lastN.
  rewrite length_app, length_drop, length_app. simpl.
  destruct (decide (length l < cap)) as [Hlt|Hge].
  - replace (length l - cap) with 0 by lia.
    replace (length l + 1 - cap) with 0 by lia.
    rewrite !drop_0.
    destruct (Nat.ltb_spec cap (length l - 0 + 1)); [lia|done].
  - destruct (Nat.ltb_spec cap (length l - (length l - cap) + 1)); [|lia].
    replace (length l + 1 - cap) with (S (length l - cap)) by lia.
    rewrite <- tail_drop. rewrite drop_app_le by lia. done.
Qed.

Lemma pushBounded_fits (cap : nat) (x : float) (w : list float) :
  length w ≤ cap → pushBounded cap x w = lastN cap (w ++ [x]).
Proof.
  intros Hle. rewrite <- pushBounded_lastN. by rewrite lastN_fits.
Qed.

Lemma pushBounded_length (cap : nat) (x : float) (w : list float) :
  length w ≤ cap → length (pushBounded cap x w) ≤ cap.
Proof. intros Hle. rewrite pushBounded_fits by done. apply lastN_length. Qed.

Lemma pushBounded_fold (cap : nat) (xs l : list float) :
  fold_left (fun w x => pushBounded cap x w) xs (lastN cap l) = lastN cap (l ++ xs).
Proof.
  revert l. induction xs as [|x xs IH]; intros l; simpl.
  - by rewrite app_nil_r.
  - rewrite pushBounded_lastN, IH. by rewrite <- app_assoc.
Qed.

(** *** The handlers, step by step *)

Section Handlers.
Context `{Runtime}.

Lemma rsi_alertStep_closePrices symbol v close st :
  Rsi.closePrices (Rsi.alertStep symbol v close st) = Rsi.closePrices st.
Proof.
  unfold Rsi.alertStep.
  repeat match goal with |- context [if ?b then _ else _] => destruct b end; done.
Qed.

Lemma lazyWindow_readable (windows : gmap string (list float)) symbol :
  readable windows symbol →
  lazyWindow windows symbol = inr (default [] (windows !! symbol)).
Proof.
  unfold readable, lazyWindow. intros [[w Hw]|Hout].
  - by rewrite Hw.
  - destruct (windows !! symbol); [done|]. by rewrite bool_decide_eq_false_2.
Qed.

Lemma lazyWindow_inherited (windows : gmap string (list float)) symbol :
  ¬ readable windows symbol →
  lazyWindow windows symbol = inl TypeError
  ∧ windows !! symbol = None ∧ symbol ∈ objectPrototype.
Proof.
  unfold readable, lazyWindow. intros Hno.
  destruct (windows !! symbol) as [w|] eqn:Hw.
  - destruct Hno. left. by eexists.
  - destruct (decide (symbol ∈ objectPrototype)) as [Hin|Hout].
    + by rewrite bool_decide_eq_true_2.
    + destruct Hno. by right.
Qed.

Lemma readable_insert (windows : gmap string (list float)) s w symbol :
  readable windows symbol → readable (<[s := w]> windows) symbol.
Proof.
  intros [Hsome|Hout]; [left|by right].
  destruct (decide (s = symbol)) as [->|Hne].
  - rewrite lookup_insert_eq. by eexists.
  - by rewrite lookup_insert_ne.
Qed.

Lemma rsi_onWindow_closePrices symbol close w st :
  Rsi.closePrices (Rsi.onWindow symbol close w st)
  = <[symbol := pushBounded 100 close w]> (Rsi.closePrices st).
Proof.
  unfold Rsi.onWindow.
  destruct (Rsi.latestRsi _); [by rewrite rsi_alertStep_closePrices|done].
Qed.

(** A closed candle, when the window of its symbol can be read: the
    handler is the rest of the [try] block on that window. *)
Lemma rsi_onMessage_closed raw symbol close st :
  Rsi.decode raw = inr (Rsi.Closed symbol close) →
  readable (Rsi.closePrices st) symbol →
  Rsi.onMessage raw st
  = Rsi.onWindow symbol close (default [] (Rsi.closePrices st !! symbol)) st.
Proof.
  intros Hd Hr. unfold Rsi.onMessage, Rsi.onClosed.
  by rewrite Hd, (lazyWindow_readable _ _ Hr).
Qed.

(** A closed candle for a name inherited from [Object.prototype]: the
    TypeError of the push goes to the [catch]. *)
Lemma rsi_onMessage_inherited raw symbol close st :
  Rsi.decode raw = inr (Rsi.Closed symbol close) →
  ¬ readable (Rsi.closePrices st) symbol →
  Rsi.onMessage raw st
  = Rsi.withOut (consoleError "❌ WebSocket message error:" TypeError) st.
Proof.
  intros Hd Hr. unfold Rsi.onMessage, Rsi.onClosed.
  destruct (lazyWindow_inherited _ _ Hr) as (Hw & _ & _).
  by rewrite Hd, Hw.
Qed.

(** The three ways through the handler. *)
Lemma rsi_onMessage_cases raw st :
  (∃ err, Rsi.onMessage raw st
          = Rsi.withOut (consoleError "❌ WebSocket message error:" err) st)
  ∨ Rsi.onMessage raw st = st
  ∨ (∃ symbol close,
       Rsi.decode raw = inr (Rsi.Closed symbol close)
       ∧ readable (Rsi.closePrices st) symbol
       ∧ Rsi.onMessage raw st
         = Rsi.onWindow symbol close (default [] (Rsi.closePrices st !! symbol)) st).
Proof.
  destruct (Rsi.decode raw) as [err|[|symbol close]] eqn:Hd.
  - left. exists err. unfold Rsi.onMessage. by rewrite Hd.
  - right. left. unfold Rsi.onMessage. by rewrite Hd.
  - destruct (decide (readable (Rsi.closePrices st) symbol)) as [Hr|Hr].
    + right. right. exists symbol, close.
      by rewrite (rsi_onMessage_closed _ _ _ _ Hd Hr).
    + left. exists TypeError. by apply (rsi_onMessage_inherited _ symbol close).
Qed.

(** The windows after one message: a push for the symbol of a closed
    candle whose window can be read, and no change otherwise. *)
Lemma rsi_onMessage_closePrices raw st :
  Rsi.closePrices (Rsi.onMessage raw st)
  = match Rsi.decode raw with
    | inr (Rsi.Closed s close) =>
        if decide (readable (Rsi.closePrices st) s)
        then <[s := pushBounded 100 close (default [] (Rsi.closePrices st !! s))]>
               (Rsi.closePrices st)
        else Rsi.closePrices st
    | _ => Rsi.closePrices st
    end.
Proof.
  destruct (Rsi.decode raw) as [err|[|s close]] eqn:Hd;
    [unfold Rsi.onMessage; by rewrite Hd..|].
  destruct (decide _) as [Hr|Hr].
  - by rewrite (rsi_onMessage_closed _ _ _ _ Hd Hr), rsi_onWindow_closePrices.
  - by rewrite (rsi_onMessage_inherited _ _ _ _ Hd Hr).
Qed.

Lemma rsi_onMessage_window raw symbol st :
  readable (Rsi.closePrices st) symbol →
  default [] (Rsi.closePrices (Rsi.onMessage raw st) !! symbol)
  = fold_left (fun w x => pushBounded 100 x w) (closesFor symbol [raw])
      (default [] (Rsi.closePrices st !! symbol))
  ∧ readable (Rsi.closePrices (Rsi.onMessage raw st)) symbol.
Proof.
  intros Hr. rewrite rsi_onMessage_closePrices. unfold closesFor. simpl.
  destruct (Rsi.decode raw) as [err|[|s close]]; [done|done|].
  case_bool_decide as Hs; simpl.
  - subst s. rewrite decide_True by done. rewrite lookup_insert_eq.
    split; [done|by apply readable_insert].
  - destruct (decide _); [|done].
    rewrite lookup_insert_ne by done. split; [done|by apply readable_insert].
Qed.

Lemma rsi_onMessages_window raws symbol st :
  readable (Rsi.closePrices st) symbol →
  default [] (Rsi.closePrices (Rsi.onMessages raws st) !! symbol)
  = fold_left (fun w x => pushBounded 100 x w) (closesFor symbol raws)
      (default [] (Rsi.closePrices st !! symbol)).
Proof.
  revert st. induction raws as [|raw raws IH]; intros st Hr; [done|].
  change (Rsi.onMessages (raw :: raws) st)
    with (Rsi.onMessages raws (Rsi.onMessage raw st)).
  replace (closesFor symbol (raw :: raws))
    with (closesFor symbol [raw] ++ closesFor symbol raws)
    by (unfold closesFor; by rewrite <- omap_app).
  destruct (rsi_onMessage_window raw symbol st Hr) as [Hw Hr'].
  by rewrite IH, Hw, fold_left_app.
Qed.

(** A name inherited from [Object.prototype] never gets a window. *)
Lemma rsi_onMessages_inherited raws symbol st :
  ¬ readable (Rsi.closePrices st) symbol →
  Rsi.closePrices (Rsi.onMessages raws st) !! symbol = None.
Proof.
  revert st. induction raws as [|raw raws IH]; intros st Hr.
  - by destruct (lazyWindow_inherited _ _ Hr) as (_ & Hnone & _).
  - change (Rsi.onMessages (raw :: raws) st)
      with (Rsi.onMessages raws (Rsi.onMessage raw st)).
    apply IH. rewrite rsi_onMessage_closePrices.
    destruct (Rsi.decode raw) as [err|[|s close]]; [done|done|].
    destruct (decide _) as [Hs|Hs]; [|done].
    destruct (lazyWindow_inherited _ _ Hr) as (_ & Hnone & Hin).
    intros [Hsome|Hout]; [|done].
    destruct (decide (s = symbol)) as [->|Hne]; [done|].
    rewrite lookup_insert_ne, Hnone in Hsome by done. by destruct Hsome.
Qed.

Lemma rsi_onMessage_bounded raw st :
  bounded 100 (Rsi.closePrices st) →
  bounded 100 (Rsi.closePrices (Rsi.onMessage raw st)).
Proof.
  intros Hb. rewrite rsi_onMessage_closePrices.
  destruct (Rsi.decode raw) as [err|[|s close]]; [done|done|].
  destruct (decide _); [|done]. intros symbol w.
  destruct (decide (s = symbol)) as [->|Hne].
  - rewrite lookup_insert_eq. intros [= <-]. apply pushBounded_length.
    destruct (Rsi.closePrices st !! symbol) as [w0|] eqn:E; simpl; [by eapply Hb|lia].
  - rewrite lookup_insert_ne by done. apply Hb.
Qed.

Lemma rsi_onMessages_bounded raws st :
  bounded 100 (Rsi.closePrices st) →
  bounded 100 (Rsi.closePrices (Rsi.onMessages raws st)).
Proof.
  revert st. induction raws as [|raw raws IH]; intros st Hb; [done|].
  apply IH. by apply rsi_onMessage_bounded.
Qed.

Lemma volume_onWindow_history symbol close volume history st :
  Volume.volumeHistory (Volume.onWindow symbol close volume history st)
  = <[symbol := pushBounded Volume.candleLimit (volume * close)%float history]>
      (Volume.volumeHistory st).
Proof.
  unfold Volume.onWindow. simpl. by destruct (Volume.spike _ _).
Qed.

Lemma volume_onMessage_closed raw symbol close volume st :
  Volume.decode raw = inr (Volume.Closed symbol close volume) →
  readable (Volume.volumeHistory st) symbol →
  Volume.onMessage raw st
  = Volume.onWindow symbol close volume
      (default [] (Volume.volumeHistory st !! symbol)) st.
Proof.
  intros Hd Hr. unfold Volume.onMessage, Volume.onClosed.
  by rewrite Hd, (lazyWindow_readable _ _ Hr).
Qed.

Lemma volume_onMessage_inherited raw symbol close volume st :
  Volume.decode raw = inr (Volume.Closed symbol close volume) →
  ¬ readable (Volume.volumeHistory st) symbol →
  Volume.onMessage raw st
  = Volume.withOut (consoleError "❌ WS message error:" TypeError) st.
Proof.
  intros Hd Hr. unfold Volume.onMessage, Volume.onClosed.
  destruct (lazyWindow_inherited _ _ Hr) as (Hw & _ & _).
  by rewrite Hd, Hw.
Qed.

Lemma volume_onMessage_cases raw st :
  (∃ err, Volume.onMessage raw st
          = Volume.withOut (consoleError "❌ WS message error:" err) st)
  ∨ Volume.onMessage raw st = st
  ∨ (∃ symbol close volume,
       Volume.decode raw = inr (Volume.Closed symbol close volume)
       ∧ readable (Volume.volumeHistory st) symbol
       ∧ Volume.onMessage raw st
         = Volume.onWindow symbol close volume
             (default [] (Volume.volumeHistory st !! symbol)) st).
Proof.
  destruct (Volume.decode raw) as [err|[|symbol close volume]] eqn:Hd.
  - left. exists err. unfold Volume.onMessage. by rewrite Hd.
  - right. left. unfold Volume.onMessage. by rewrite Hd.
  - destruct (decide (readable (Volume.volumeHistory st) symbol)) as [Hr|Hr].
    + right. right. exists symbol, close, volume.
      by rewrite (volume_onMessage_closed _ _ _ _ _ Hd Hr).
    + left. exists TypeError.
      by apply (volume_onMessage_inherited _ symbol close volume).
Qed.

Lemma volume_onMessage_history raw st :
  Volume.volumeHistory (Volume.onMessage raw st)
  = match Volume.decode raw with
    | inr (Volume.Closed s close volume) =>
        if decide (readable (Volume.volumeHistory st) s)
        then <[s := pushBounded Volume.candleLimit (volume * close)%float
                      (default [] (Volume.volumeHistory st !! s))]>
               (Volume.volumeHistory st)
        else Volume.volumeHistory st
    | _ => Volume.volumeHistory st
    end.
Proof.
  destruct (Volume.decode raw) as [err|[|s close volume]] eqn:Hd;
    [unfold Volume.onMessage; by rewrite Hd..|].
  destruct (decide _) as [Hr|Hr].
  - by rewrite (volume_onMessage_closed _ _ _ _ _ Hd Hr), volume_onWindow_history.
  - by rewrite (volume_onMessage_inherited _ _ _ _ _ Hd Hr).
Qed.

Lemma volume_onMessage_window raw symbol st :
  readable (Volume.volumeHistory st) symbol →
  default [] (Volume.volumeHistory (Volume.onMessage raw st) !! symbol)
  = fold_left (fun w x => pushBounded Volume.candleLimit x w)
      (volumesFor symbol [raw]) (default [] (Volume.volumeHistory st !! symbol))
  ∧ readable (Volume.volumeHistory (Volume.onMessage raw st)) symbol.
Proof.
  intros Hr. rewrite volume_onMessage_history. unfold volumesFor. simpl.
  destruct (Volume.decode raw) as [err|[|s close volume]]; [done|done|].
  case_bool_decide as Hs; simpl.
  - subst s. rewrite decide_True by done. rewrite lookup_insert_eq.
    split; [done|by apply readable_insert].
  - destruct (decide _); [|done].
    rewrite lookup_insert_ne by done. split; [done|by apply readable_insert].
Qed.

Lemma volume_onMessages_window raws symbol st :
  readable (Volume.volumeHistory st) symbol →
  default [] (Volume.volumeHistory (Volume.onMessages raws st) !! symbol)
  = fold_left (fun w x => pushBounded Volume.candleLimit x w)
      (volumesFor symbol raws) (default [] (Volume.volumeHistory st !! symbol)).
Proof.
  revert st. induction raws as [|raw raws IH]; intros st Hr; [done|].
  change (Volume.onMessages (raw :: raws) st)
    with (Volume.onMessages raws (Volume.onMessage raw st)).
  replace (volumesFor symbol (raw :: raws))
    with (volumesFor symbol [raw] ++ volumesFor symbol raws)
    by (unfold volumesFor; by rewrite <- omap_app).
  destruct (volume_onMessage_window raw symbol st Hr) as [Hw Hr'].
  by rewrite IH, Hw, fold_left_app.
Qed.

Lemma volume_onMessages_inherited raws symbol st :
  ¬ readable (Volume.volumeHistory st) symbol →
  Volume.volumeHistory (Volume.onMessages raws st) !! symbol = None.
Proof.
  revert st. induction raws as [|raw raws IH]; intros st Hr.
  - by destruct (lazyWindow_inherited _ _ Hr) as (_ & Hnone & _).
  - change (Volume.onMessages (raw :: raws) st)
      with (Volume.onMessages raws (Volume.onMessage raw st)).
    apply IH. rewrite volume_onMessage_history.
    destruct (Volume.decode raw) as [err|[|s close volume]]; [done|done|].
    destruct (decide _) as [Hs|Hs]; [|done].
    destruct (lazyWindow_inherited _ _ Hr) as (_ & Hnone & Hin).
    intros [Hsome|Hout]; [|done].
    destruct (decide (s = symbol)) as [->|Hne]; [done|].
    rewrite lookup_insert_ne, Hnone in Hsome by done. by destruct Hsome.
Qed.

Lemma volume_onMessage_bounded raw st :
  bounded Volume.candleLimit (Volume.volumeHistory st) →
  bounded Volume.candleLimit (Volume.volumeHistory (Volume.onMessage raw st)).
Proof.
  intros Hb. rewrite volume_onMessage_history.
  destruct (Volume.decode raw) as [err|[|s close volume]]; [done|done|].
  destruct (decide _); [|done]. intros symbol w.
  destruct (decide (s = symbol)) as [->|Hne].
  - rewrite lookup_insert_eq. intros [= <-]. apply pushBounded_length.
    destruct (Volume.volumeHistory st !! symbol) as [w0|] eqn:E; simpl;
      [by eapply Hb|lia].
  - rewrite lookup_insert_ne by done. apply Hb.
Qed.

Lemma volume_onMessages_bounded raws st :
  bounded Volume.candleLimit (Volume.volumeHistory st) →
  bounded Volume.candleLimit (Volume.volumeHistory (Volume.onMessages raws st)).
Proof.
  revert st. induction raws as [|raw raws IH]; intros st Hb; [done|].
  apply IH. by apply volume_onMessage_bounded.
Qed.

Lemma bounded_default cap (windows : gmap string (list float)) symbol :
  bounded cap windows → length (default [] (windows !! symbol)) ≤ cap.
Proof.
  intros Hb. destruct (windows !! symbol) as [w|] eqn:E; simpl; [by eapply Hb|lia].
Qed.

(** C2. Rolling window bound and FIFO eviction: along any stream of
    messages, and for every symbol, the stored window is the last 100
    (momentum) or 30 (volume) samples of everything the symbol had and
    was pushed, in arrival order; every stored window stays within its
    capacity; and a push onto a full window drops exactly the oldest
    sample. The samples pushed are those of all the closed candles of
    the symbol when the handler can read its window; a name inherited
    from [Object.prototype] that has no window is never pushed a sample
    and never gets a window. *)
Theorem window_bounded_fifo (symbol : string) (raws : list string)
    (st : Rsi.State) (vst : Volume.State) :
  bounded 100 (Rsi.closePrices st) →
  bounded 30 (Volume.volumeHistory vst) →
  let st' := Rsi.onMessages raws st in
  let vst' := Volume.onMessages raws vst in
  (readable (Rsi.closePrices st) symbol →
     default [] (Rsi.closePrices st' !! symbol)
     = lastN 100 (default [] (Rsi.closePrices st !! symbol) ++ closesFor symbol raws))
  ∧ (¬ readable (Rsi.closePrices st) symbol → Rsi.closePrices st' !! symbol = None)
  ∧ (readable (Volume.volumeHistory vst) symbol →
       default [] (Volume.volumeHistory vst' !! symbol)
       = lastN 30 (default [] (Volume.volumeHistory vst !! symbol)
                     ++ volumesFor symbol raws))
  ∧ (¬ readable (Volume.volumeHistory vst) symbol →
       Volume.volumeHistory vst' !! symbol = None)
  ∧ bounded 100 (Rsi.closePrices st')
  ∧ bounded 30 (Volume.volumeHistory vst')
  ∧ (∀ cap x w, length w < cap → pushBounded cap x w = w ++ [x])
  ∧ (∀ cap x w, length w = cap → pushBounded cap x w = tail (w ++ [x])).
Proof.
  intros Hb Hvb st' vst'. split_and!.
  - intros Hr. unfold st'. rewrite rsi_onMessages_window by done.
    rewrite <- (lastN_fits 100 (default [] (Rsi.closePrices st !! symbol)))
      at 1 by by apply bounded_default.
    apply pushBounded_fold.
  - apply rsi_onMessages_inherited.
  - intros Hr. unfold vst'. rewrite volume_onMessages_window by done.
    rewrite <- (lastN_fits 30 (default [] (Volume.volumeHistory vst !! symbol)))
      at 1 by by apply bounded_default.
    apply (pushBounded_fold 30).
  - apply volume_onMessages_inherited.
  - by apply rsi_onMessages_bounded.
  - by apply volume_onMessages_bounded.
  - intros cap x w Hlt. unfold pushBounded. rewrite length_app. simpl.
    destruct (Nat.ltb_spec cap (length w + 1)); [lia|done].
  - intros cap x w Heq. unfold pushBounded. rewrite length_app. simpl.
    destruct (Nat.ltb_spec cap (length w + 1)); [done|lia].
Qed.

End Handlers.

(** *** The indicator and the decision *)

Lemma deltas_length (prev : float) (values : list float) :
  length (Rsi.deltas prev values) = length values.
Proof. revert prev. induction values as [|v rest IH]; intros prev; simpl; auto. Qed.

Lemma RSI_calculate_nil (values : list float) (period : nat) :
  length values ≤ period → Rsi.RSI_calculate values period = [].
Proof.
  destruct values as [|first rest]; [done|]. simpl. intros Hle.
  rewrite deltas_length. destruct (Nat.ltb_spec (length rest) period); [done|lia].
Qed.

Lemma RSI_calculate_last (values : list float) (period : nat) :
  period + 1 ≤ length values → is_Some (last (Rsi.RSI_calculate values period)).
Proof.
  destruct values as [|first rest]; simpl; [lia|]. intros Hle.
  rewrite deltas_length. destruct (Nat.ltb_spec (length rest) period); [lia|].
  match goal with |- is_Some (last (?a :: ?l)) => generalize a l end.
  intros a l. revert a. induction l as [|b l IH]; intros a; [by eexists|].
  apply (IH b).
Qed.

Lemma latestRsi_defined (arr : list float) :
  Rsi.rsiPeriod + 1 ≤ length arr → is_Some (Rsi.latestRsi arr).
Proof.
  intros Hle. unfold Rsi.latestRsi.
  destruct (Nat.leb_spec Rsi.rsiPeriod (length arr)); [|lia].
  by apply RSI_calculate_last.
Qed.

Lemma latestRsi_undefined (arr : list float) :
  length arr < Rsi.rsiPeriod + 1 → Rsi.latestRsi arr = None.
Proof.
  intros Hlt. unfold Rsi.latestRsi.
  destruct (Nat.leb_spec Rsi.rsiPeriod (length arr)); [|done].
  rewrite RSI_calculate_nil; [done|lia].
Qed.

Section Momentum.
Context `{Runtime}.
Implicit Types (st : Rsi.State) (symbol raw : string) (v close : float).

Lemma alertState_setLastAlert symbol t st :
  alertState symbol (Rsi.setLastAlert symbol t st) = t.
Proof. unfold alertState, Rsi.setLastAlert. simpl. by rewrite lookup_insert_eq. Qed.

Lemma alertState_sendRsiAlert symbol s v close st :
  alertState symbol (Rsi.sendRsiAlert s v close st) = alertState symbol st.
Proof. done. Qed.

Lemma sendRsiAlert_queue symbol v close st :
  ∃ a, alertQueue (Rsi.out (Rsi.sendRsiAlert symbol v close st))
       = alertQueue (Rsi.out st) ++ [a].
Proof. by eexists. Qed.

(** The three arms of the decision, and what is left. *)
Lemma alertStep_fire_high symbol v close st :
  gt v Rsi.rsiUpper = true → alertState symbol st ≠ Rsi.high →
  Rsi.alertStep symbol v close st
  = Rsi.setLastAlert symbol Rsi.high (Rsi.sendRsiAlert symbol v close st).
Proof.
  intros Hv Hs. unfold Rsi.alertStep. cbv zeta. fold (alertState symbol st).
  rewrite Hv. by rewrite bool_decide_eq_false_2.
Qed.

Lemma alertStep_fire_low symbol v close st :
  lt v Rsi.rsiLower = true → alertState symbol st ≠ Rsi.low →
  Rsi.alertStep symbol v close st
  = Rsi.setLastAlert symbol Rsi.low (Rsi.sendRsiAlert symbol v close st).
Proof.
  intros Hv Hs. unfold Rsi.alertStep. cbv zeta. fold (alertState symbol st).
  destruct (gt v Rsi.rsiUpper) eqn:Hup.
  { apply above_upper_not_below_lower in Hup. congruence. }
  cbn [andb]. rewrite Hv. by rewrite (bool_decide_eq_false_2 _ Hs).
Qed.

Lemma alertStep_reset symbol v close st :
  ge v Rsi.rsiLower = true → le v Rsi.rsiUpper = true →
  Rsi.alertStep symbol v close st = Rsi.setLastAlert symbol Rsi.null st.
Proof.
  intros Hlo Hup. unfold Rsi.alertStep. cbv zeta.
  rewrite (le_not_gt _ _ Hup), (ge_not_lt _ _ Hlo), Hlo, Hup. done.
Qed.

Lemma alertStep_hold symbol v close st :
  ¬ (gt v Rsi.rsiUpper = true ∧ alertState symbol st ≠ Rsi.high) →
  ¬ (lt v Rsi.rsiLower = true ∧ alertState symbol st ≠ Rsi.low) →
  ¬ (ge v Rsi.rsiLower = true ∧ le v Rsi.rsiUpper = true) →
  Rsi.alertStep symbol v close st = st.
Proof.
  intros Hhigh Hlow Hband. unfold Rsi.alertStep. cbv zeta.
  fold (alertState symbol st).
  destruct (gt v Rsi.rsiUpper && _) eqn:E1.
  { apply andb_true_iff in E1 as [? E1]. apply negb_true_iff in E1.
    apply bool_decide_eq_false in E1. tauto. }
  destruct (lt v Rsi.rsiLower && _) eqn:E2.
  { apply andb_true_iff in E2 as [? E2]. apply negb_true_iff in E2.
    apply bool_decide_eq_false in E2. tauto. }
  destruct (ge v Rsi.rsiLower && _) eqn:E3; [|done].
  apply andb_true_iff in E3. tauto.
Qed.

(** A window that yields a metric once the close is pushed holds at
    least fifteen prices already: it is a stored one. *)
Lemma defined_metric_readable symbol close v st :
  Rsi.latestRsi (pushBounded 100 close (default [] (Rsi.closePrices st !! symbol)))
    = Some v →
  readable (Rsi.closePrices st) symbol.
Proof.
  intros Hv. destruct (decide (readable (Rsi.closePrices st) symbol)) as [|Hr]; [done|].
  destruct (lazyWindow_inherited _ _ Hr) as (_ & Hnone & _).
  rewrite Hnone, latestRsi_undefined in Hv; [done|].
  unfold Rsi.rsiPeriod. simpl. lia.
Qed.

(** C1. Momentum alert transition rule: on a closed tick whose RSI value
    [v] is defined, [v > 80] outside state High enqueues one alert and
    sets High; [v < 20] outside state Low enqueues one alert and sets Low;
    [20 <= v <= 80] sets Neutral and enqueues nothing; in every other
    case nothing is enqueued and the alert state is unchanged. *)
Theorem momentum_transition raw symbol close v st :
  Rsi.decode raw = inr (Rsi.Closed symbol close) →
  Rsi.latestRsi (pushBounded 100 close (default [] (Rsi.closePrices st !! symbol)))
    = Some v →
  let st' := Rsi.onMessage raw st in
  let queue := alertQueue (Rsi.out st) in
  let queue' := alertQueue (Rsi.out st') in
  (gt v 80 = true → alertState symbol st ≠ Rsi.high →
     (∃ a, queue' = queue ++ [a])
     ∧ Rsi.lastAlert st' = <[symbol := {| Rsi.type := Rsi.high |}]> (Rsi.lastAlert st))
  ∧ (lt v 20 = true → alertState symbol st ≠ Rsi.low →
     (∃ a, queue' = queue ++ [a])
     ∧ Rsi.lastAlert st' = <[symbol := {| Rsi.type := Rsi.low |}]> (Rsi.lastAlert st))
  ∧ (ge v 20 = true → le v 80 = true →
     queue' = queue
     ∧ Rsi.lastAlert st' = <[symbol := {| Rsi.type := Rsi.null |}]> (Rsi.lastAlert st))
  ∧ (¬ (gt v 80 = true ∧ alertState symbol st ≠ Rsi.high) →
     ¬ (lt v 20 = true ∧ alertState symbol st ≠ Rsi.low) →
     ¬ (ge v 20 = true ∧ le v 80 = true) →
     queue' = queue ∧ Rsi.lastAlert st' = Rsi.lastAlert st).
Proof.
  intros Hd Hv st' queue queue'. subst st' queue queue'.
  rewrite (rsi_onMessage_closed _ _ _ _ Hd (defined_metric_readable _ _ _ _ Hv)).
  unfold Rsi.onWindow. cbv zeta. rewrite Hv.
  set (st1 := Rsi.setClosePrices symbol _ st).
  change (alertState symbol st) with (alertState symbol st1).
  change (Rsi.lastAlert st) with (Rsi.lastAlert st1).
  change (Rsi.out st) with (Rsi.out st1).
  split_and!.
  - intros Hup Hs. rewrite alertStep_fire_high by done. split; [by eexists|done].
  - intros Hlo Hs. rewrite alertStep_fire_low by done. split; [by eexists|done].
  - intros Hlo Hup. by rewrite alertStep_reset.
  - intros H1 H2 H3. by rewrite alertStep_hold.
Qed.

(** C4. Momentum metric definedness (with [RSI.calculate] as the
    specification describes it): on a closed tick the window, once the
    close is pushed, yields an RSI value for the decision exactly when it
    holds at least [rsiPeriod + 1 = 16] prices; with fewer prices the
    handler stops after the window update. A tick for a name inherited
    from [Object.prototype] that has no window pushes nothing: it has no
    price window and no metric, and the handler stops in its [catch]. *)
Theorem rsi_defined_iff_sixteen raw symbol close st :
  Rsi.decode raw = inr (Rsi.Closed symbol close) →
  (∀ window, lazyWindow (Rsi.closePrices st) symbol = inr window →
     let arr := pushBounded 100 close window in
     let st1 := Rsi.setClosePrices symbol arr st in
     window = default [] (Rsi.closePrices st !! symbol)
     ∧ (is_Some (Rsi.latestRsi arr) ↔ 16 ≤ length arr)
     ∧ (16 ≤ length arr →
        ∃ v, Rsi.latestRsi arr = Some v
             ∧ Rsi.onMessage raw st = Rsi.alertStep symbol v close st1)
     ∧ (length arr < 16 → Rsi.onMessage raw st = st1))
  ∧ (∀ err, lazyWindow (Rsi.closePrices st) symbol = inl err →
       Rsi.closePrices st !! symbol = None
       ∧ Rsi.onMessage raw st
         = Rsi.withOut (consoleError "❌ WebSocket message error:" err) st).
Proof.
  intros Hd. split.
  - intros window Hw arr st1.
    assert (Rsi.onMessage raw st = Rsi.onWindow symbol close window st) as ->.
    { unfold Rsi.onMessage, Rsi.onClosed. by rewrite Hd, Hw. }
    unfold Rsi.onWindow. cbv zeta. fold arr. fold st1. split_and!.
    + unfold lazyWindow in Hw. destruct (Rsi.closePrices st !! symbol); simpl.
      * by injection Hw.
      * case_bool_decide; [done|by injection Hw].
    + split; [|apply latestRsi_defined].
      intros Hsome. destruct (decide (16 ≤ length arr)) as [|Hlt]; [done|].
      rewrite latestRsi_undefined in Hsome by (unfold Rsi.rsiPeriod; lia).
      by destruct Hsome.
    + intros Hle. destruct (latestRsi_defined arr Hle) as [v Hv].
      exists v. by rewrite Hv.
    + intros Hlt. by rewrite latestRsi_undefined.
  - intros err Hw. split.
    + unfold lazyWindow in Hw. by destruct (Rsi.closePrices st !! symbol).
    + unfold Rsi.onMessage, Rsi.onClosed. by rewrite Hd, Hw.
Qed.


End Momentum.

Section Traces.
Context `{Runtime}.
Implicit Types (st : Rsi.State) (symbol : string) (v close : float).

Lemma alertStep_hold_high symbol v close st :
  gt v Rsi.rsiUpper = true → alertState symbol st = Rsi.high →
  Rsi.alertStep symbol v close st = st.
Proof.
  intros Hv Hs. apply alertStep_hold.
  - intros [_ Hne]. by apply Hne.
  - intros [Hlo _]. apply above_upper_not_below_lower in Hv. congruence.
  - intros [_ Hup]. apply le_not_gt in Hup. congruence.
Qed.

Lemma feed_cons symbol v metrics close st :
  Rsi.feed symbol (v :: metrics) close st
  = length (alertQueue (Rsi.out (Rsi.alertStep symbol v close st)))
      :: Rsi.feed symbol metrics close (Rsi.alertStep symbol v close st).
Proof. done. Qed.

(** A value above 80 met outside High: one more alert, state High. *)
Lemma feed_fires symbol v metrics close st :
  gt v Rsi.rsiUpper = true → alertState symbol st ≠ Rsi.high →
  ∃ st', alertState symbol st' = Rsi.high
         ∧ length (alertQueue (Rsi.out st')) = S (length (alertQueue (Rsi.out st)))
         ∧ Rsi.feed symbol (v :: metrics) close st
           = S (length (alertQueue (Rsi.out st))) :: Rsi.feed symbol metrics close st'.
Proof.
  intros Hv Hs. eexists. rewrite feed_cons, alertStep_fire_high by done.
  split_and!; [apply alertState_setLastAlert| |f_equal].
  all: simpl; rewrite length_app; simpl; lia.
Qed.

(** A value above 80 met in High: nothing moves. *)
Lemma feed_holds symbol v metrics close st :
  gt v Rsi.rsiUpper = true → alertState symbol st = Rsi.high →
  Rsi.feed symbol (v :: metrics) close st
  = length (alertQueue (Rsi.out st)) :: Rsi.feed symbol metrics close st.
Proof. intros Hv Hs. by rewrite feed_cons, alertStep_hold_high. Qed.

(** A value in the band: state Neutral, queue as it was. *)
Lemma feed_resets symbol v metrics close st :
  ge v Rsi.rsiLower = true → le v Rsi.rsiUpper = true →
  ∃ st', alertState symbol st' = Rsi.null
         ∧ alertQueue (Rsi.out st') = alertQueue (Rsi.out st)
         ∧ Rsi.feed symbol (v :: metrics) close st
           = length (alertQueue (Rsi.out st)) :: Rsi.feed symbol metrics close st'.
Proof.
  intros Hlo Hup. eexists. rewrite feed_cons, alertStep_reset by done.
  split_and!; [apply alertState_setLastAlert|done|done].
Qed.

(** C6. Edge-triggering and re-arming: from state Neutral, the metric
    sequence 90, 95, 85, 92 enqueues one alert, at the first value; the
    sequence 90, 70, 92 enqueues two, at the first and the third. The
    lists give the length of the queue after each value, [n] being its
    length before. *)
Theorem edge_trigger_traces symbol close st :
  alertState symbol st = Rsi.null →
  let n := length (alertQueue (Rsi.out st)) in
  Rsi.feed symbol [90; 95; 85; 92]%float close st = [n + 1; n + 1; n + 1; n + 1]
  ∧ Rsi.feed symbol [90; 70; 92]%float close st = [n + 1; n + 1; n + 2].
Proof.
  intros Hs n. subst n. split.
  - destruct (feed_fires symbol 90 [95; 85; 92]%float close st)
      as (st1 & Hs1 & Hq1 & ->); [done|congruence|].
    rewrite !feed_holds by done. rewrite Hq1. simpl. repeat f_equal; lia.
  - destruct (feed_fires symbol 90 [70; 92]%float close st)
      as (st1 & Hs1 & Hq1 & ->); [done|congruence|].
    destruct (feed_resets symbol 70 [92]%float close st1)
      as (st2 & Hs2 & Hq2 & ->); [done|done|].
    destruct (feed_fires symbol 92 [] close st2)
      as (st3 & Hs3 & Hq3 & ->); [done|congruence|].
    rewrite Hq2, Hq1. simpl. repeat f_equal; lia.
Qed.

End Traces.

(** *** Forming candles *)

Section Forming.
Context `{Runtime}.

(** C8. Forming events are ignored: a kline message whose [k.x] is falsy
    leaves the whole state of either bot as it was: windows, alert
    states, queue and console. Both handlers read the symbol and the
    candle of a message in the same way. *)
Theorem forming_ignored (raw symbol : string) (data k x : jsval)
    (st : Rsi.State) (vst : Volume.State) :
  Rsi.symbolOf raw = inr (data, symbol) →
  Volume.symbolOf raw = inr (data, symbol) →
  getProp data "k" = inr k →
  getProp k "x" = inr x →
  truthy x = false →
  Rsi.onMessage raw st = st ∧ Volume.onMessage raw vst = vst.
Proof.
  intros Hsym Hvsym Hk Hx Hfalse. split.
  - unfold Rsi.onMessage, Rsi.decode. rewrite Hsym. simpl.
    rewrite Hk. simpl. rewrite Hx. simpl. by rewrite Hfalse.
  - unfold Volume.onMessage, Volume.decode. rewrite Hvsym. simpl.
    rewrite Hk. simpl. rewrite Hx. simpl. by rewrite Hfalse.
Qed.

End Forming.

(** *** Volume spikes *)

Section Spikes.
Context `{Runtime}.
Implicit Types (st : Volume.State) (symbol raw : string) (close volume : float).

Lemma spike_true (history : list float) (volumeUSD : float) :
  Volume.spike history volumeUSD = true
  ↔ 30 ≤ length history
    ∧ ge volumeUSD (2 * Volume.average history)%float = true
    ∧ ge volumeUSD 50000 = true.
Proof.
  unfold Volume.spike. rewrite !andb_true_iff, Nat.leb_le.
  unfold Volume.candleLimit, Volume.volumeMultiplier. tauto.
Qed.

Lemma spike_underfilled (history : list float) (volumeUSD : float) :
  length history < 30 → Volume.spike history volumeUSD = false.
Proof.
  intros Hlt. unfold Volume.spike.
  destruct (Nat.leb_spec Volume.candleLimit (length history)); [|done].
  unfold Volume.candleLimit in *. lia.
Qed.

(** The quotient that the handler computes is the mean of the history. *)
Lemma average_mean (history : list float) : Volume.average history = mean history.
Proof.
  unfold Volume.average, mean, total, number_of_nat. f_equal.
  generalize 0%float. induction history as [|x rest IH]; intros acc; [done|].
  simpl. apply IH.
Qed.

Lemma volume_onWindow_queue symbol close volume history st :
  let volumeUSD := (volume * close)%float in
  alertQueue (Volume.out (Volume.onWindow symbol close volume history st))
  = alertQueue (Volume.out st)
      ++ (if Volume.spike history volumeUSD
          then [Build_Alert
                  ("📢 *#" +:+ removeFirst "USDT" (toUpperCase symbol)
                     +:+ "* high volume spike: *$"
                     +:+ toFixed (volumeUSD / 1000)%float 4 +:+ "k*")]
          else []).
Proof.
  intros volumeUSD. unfold Volume.onWindow. cbv zeta. fold volumeUSD.
  destruct (Volume.spike history volumeUSD); simpl; [done|by rewrite app_nil_r].
Qed.

(** What a closed candle adds to the queue, whether or not the history
    of its symbol can be read. *)
Lemma volume_onMessage_closed_queue raw symbol close volume st :
  Volume.decode raw = inr (Volume.Closed symbol close volume) →
  let history := default [] (Volume.volumeHistory st !! symbol) in
  let volumeUSD := (volume * close)%float in
  alertQueue (Volume.out (Volume.onMessage raw st))
  = alertQueue (Volume.out st)
      ++ (if Volume.spike history volumeUSD
          then [Build_Alert
                  ("📢 *#" +:+ removeFirst "USDT" (toUpperCase symbol)
                     +:+ "* high volume spike: *$"
                     +:+ toFixed (volumeUSD / 1000)%float 4 +:+ "k*")]
          else []).
Proof.
  intros Hd history volumeUSD.
  destruct (decide (readable (Volume.volumeHistory st) symbol)) as [Hr|Hr].
  - rewrite (volume_onMessage_closed _ _ _ _ _ Hd Hr). apply volume_onWindow_queue.
  - rewrite (volume_onMessage_inherited _ _ _ _ _ Hd Hr).
    destruct (lazyWindow_inherited _ _ Hr) as (_ & Hnone & _).
    subst history. rewrite Hnone.
    rewrite spike_underfilled by (simpl; lia). simpl. by rewrite app_nil_r.
Qed.

(** C3. Volume spike alert condition: on a closed tick an alert is
    enqueued exactly when the stored history has at least 30 entries and
    the notional volume is at least twice the mean of that history (the
    sum of its samples divided by their number) and at least 50,000. The
    history is the one stored before the tick: the tick's own value joins
    it only afterwards, on every tick whose history the handler can read.
    Nothing else is consulted, so the condition is looked at afresh on
    every closed tick. *)
Theorem volume_spike_iff raw symbol close volume st :
  Volume.decode raw = inr (Volume.Closed symbol close volume) →
  let history := default [] (Volume.volumeHistory st !! symbol) in
  let volumeUSD := (volume * close)%float in
  let st' := Volume.onMessage raw st in
  let queue := alertQueue (Volume.out st) in
  let queue' := alertQueue (Volume.out st') in
  ((∃ a, queue' = queue ++ [a])
   ↔ 30 ≤ length history
     ∧ ge volumeUSD (2 * mean history)%float = true
     ∧ ge volumeUSD 50000 = true)
  ∧ (queue' = queue ∨ ∃ a, queue' = queue ++ [a])
  ∧ (readable (Volume.volumeHistory st) symbol →
       Volume.volumeHistory st' !! symbol = Some (pushBounded 30 volumeUSD history))
  ∧ (¬ readable (Volume.volumeHistory st) symbol →
       Volume.volumeHistory st' !! symbol = None).
Proof.
  intros Hd history volumeUSD st' queue queue'. subst st' queue queue'.
  rewrite (volume_onMessage_closed_queue _ _ _ _ _ Hd).
  fold history. fold volumeUSD. rewrite <- average_mean, <- spike_true.
  assert (∀ a : Alert, alertQueue (Volume.out st) ≠ alertQueue (Volume.out st) ++ [a])
    as Hgrow.
  { intros a Ha. apply (f_equal length) in Ha.
    rewrite length_app in Ha. simpl in Ha. lia. }
  split_and!.
  - destruct (Volume.spike history volumeUSD).
    + split; [done|by eexists].
    + rewrite app_nil_r. split; [|done]. intros [a Ha]. by destruct (Hgrow a).
  - destruct (Volume.spike history volumeUSD); [right; by eexists|].
    left. by rewrite app_nil_r.
  - intros Hr. rewrite (volume_onMessage_closed _ _ _ _ _ Hd Hr).
    by rewrite volume_onWindow_history, lookup_insert_eq.
  - intros Hr. rewrite (volume_onMessage_inherited _ _ _ _ _ Hd Hr).
    by destruct (lazyWindow_inherited _ _ Hr) as (_ & Hnone & _).
Qed.


End Spikes.

(** *** The dispatcher *)

Section Dispatcher.
Implicit Types (o : Outbox) (delivered : bool).

Lemma drainTick_queue delivered o :
  alertQueue (drainTick delivered o) = tail (alertQueue o).
Proof. unfold drainTick. destruct (alertQueue o) eqn:E, delivered; by rewrite ?E. Qed.

Lemma drainTick_sent delivered o :
  sent (drainTick delivered o) = sent o ++ (text <$> take 1 (alertQueue o)).
Proof.
  unfold drainTick. destruct (alertQueue o) as [|next rest], delivered; simpl;
    by rewrite ?app_nil_r.
Qed.

Lemma drainTicks_queue outcomes o :
  alertQueue (drainTicks outcomes o) = drop (length outcomes) (alertQueue o).
Proof.
  revert o. induction outcomes as [|b outcomes IH]; intros o; [done|].
  change (drainTicks (b :: outcomes) o) with (drainTicks outcomes (drainTick b o)).
  rewrite IH, drainTick_queue. destruct (alertQueue o); simpl; by rewrite ?drop_nil.
Qed.

Lemma drainTicks_sent outcomes o :
  sent (drainTicks outcomes o)
  = sent o ++ (text <$> take (length outcomes) (alertQueue o)).
Proof.
  revert o. induction outcomes as [|b outcomes IH]; intros o.
  - simpl. by rewrite app_nil_r.
  - change (drainTicks (b :: outcomes) o) with (drainTicks outcomes (drainTick b o)).
    rewrite IH, drainTick_queue, drainTick_sent.
    destruct (alertQueue o) as [|next rest]; simpl.
    + by rewrite take_nil, !app_nil_r.
    + by rewrite <- app_assoc.
Qed.

(** Whatever was enqueued is either sent or still queued, in order. *)
Lemma run_conserves evs o :
  sent (run evs o) ++ (text <$> alertQueue (run evs o))
  = sent o ++ (text <$> (alertQueue o ++ enqueued evs)).
Proof.
  revert o. induction evs as [|ev evs IH]; intros o.
  - simpl. by rewrite app_nil_r.
  - change (run (ev :: evs) o) with (run evs (step o ev)). rewrite IH.
    destruct ev as [a|delivered]; simpl.
    + by rewrite <- app_assoc.
    + rewrite drainTick_queue, drainTick_sent.
      destruct (alertQueue o) as [|next rest]; simpl; [by rewrite app_nil_r|].
      by rewrite <- app_assoc.
Qed.

(** C5. Dispatcher rate, order and loss policy: a drain tick takes at
    most one alert off the single queue, the least recently enqueued
    one, and hands it to the sender, whether or not the delivery then
    fails; a failed delivery is logged and the alert is not put back.
    So [K] queued alerts leave in their enqueue order over [K] ticks,
    and along any interleaving of enqueues and ticks what was sent is a
    prefix of what was enqueued, each alert once. *)
Theorem dispatcher_fifo_at_most_once (o : Outbox) (outcomes : list bool)
    (delivered : bool) (evs : list Event) :
  length outcomes = length (alertQueue o) →
  alertQueue (drainTick delivered o) = tail (alertQueue o)
  ∧ sent (drainTick delivered o) = sent o ++ (text <$> take 1 (alertQueue o))
  ∧ (alertQueue o ≠ [] →
     console (drainTick false o) = console o ++ [LogError EmptyString RejectedSend]
     ∧ console (drainTick true o) = console o)
  ∧ sent (drainTicks outcomes o) = sent o ++ (text <$> alertQueue o)
  ∧ alertQueue (drainTicks outcomes o) = []
  ∧ sent (run evs o) ++ (text <$> alertQueue (run evs o))
    = sent o ++ (text <$> (alertQueue o ++ enqueued evs)).
Proof.
  intros Hlen. split_and!.
  - apply drainTick_queue.
  - apply drainTick_sent.
  - unfold drainTick. by destruct (alertQueue o).
  - by rewrite drainTicks_sent, Hlen, firstn_all.
  - by rewrite drainTicks_queue, Hlen, drop_all.
  - apply run_conserves.
Qed.

End Dispatcher.

(** *** One symbol does not reach another *)

Section Isolation.
Context `{Runtime}.

Lemma drop_length_app {A : Type} (l added : list A) :
  drop (length l) (l ++ added) = added.
Proof. by rewrite drop_app_length. Qed.

(** **** Momentum bot *)

Lemma rsi_decode_symbol raw symbol close :
  Rsi.decode raw = inr (Rsi.Closed symbol close) →
  Rsi.messageSymbol raw = Some symbol.
Proof.
  unfold Rsi.decode, Rsi.messageSymbol.
  destruct (Rsi.symbolOf raw) as [err|[data s]]; simpl; [done|].
  destruct (getProp data "k") as [err|k]; simpl; [done|].
  destruct (getProp k "x") as [err|x]; simpl; [done|].
  destruct (negb (truthy x)); simpl; [done|].
  destruct (getProp k "c") as [err|c]; simpl; [done|].
  destruct (parseFloat c) as [err|close']; simpl; [done|].
  by intros [= -> _].
Qed.

Lemma rsi_alertStep_lastAlert_other symbol other v close st :
  symbol ≠ other →
  Rsi.lastAlert (Rsi.alertStep symbol v close st) !! other = Rsi.lastAlert st !! other.
Proof.
  intros Hne. unfold Rsi.alertStep. cbv zeta.
  destruct (gt v Rsi.rsiUpper && _); [by apply lookup_insert_ne|].
  destruct (lt v Rsi.rsiLower && _); [by apply lookup_insert_ne|].
  destruct (ge v Rsi.rsiLower && _); [by apply lookup_insert_ne|done].
Qed.

(** The decision reads the alert state of its own symbol and nothing
    else of the state. *)
Lemma rsi_alertStep_local symbol v close (st1 st2 : Rsi.State) :
  Rsi.lastAlert st1 !! symbol = Rsi.lastAlert st2 !! symbol →
  Rsi.lastAlert (Rsi.alertStep symbol v close st1) !! symbol
  = Rsi.lastAlert (Rsi.alertStep symbol v close st2) !! symbol
  ∧ ∃ added,
      alertQueue (Rsi.out (Rsi.alertStep symbol v close st1))
      = alertQueue (Rsi.out st1) ++ added
      ∧ alertQueue (Rsi.out (Rsi.alertStep symbol v close st2))
        = alertQueue (Rsi.out st2) ++ added.
Proof.
  intros Hl. unfold Rsi.alertStep. cbv zeta. rewrite Hl.
  destruct (gt v Rsi.rsiUpper && _).
  { split; [simpl; by rewrite !lookup_insert_eq|by eexists]. }
  destruct (lt v Rsi.rsiLower && _).
  { split; [simpl; by rewrite !lookup_insert_eq|by eexists]. }
  destruct (ge v Rsi.rsiLower && _).
  { split; [simpl; by rewrite !lookup_insert_eq|]. exists []. by rewrite !app_nil_r. }
  split; [done|]. exists []. by rewrite !app_nil_r.
Qed.

Lemma rsi_alertStep_appends symbol v close (st : Rsi.State) :
  ∃ added, alertQueue (Rsi.out (Rsi.alertStep symbol v close st))
           = alertQueue (Rsi.out st) ++ added.
Proof.
  destruct (rsi_alertStep_local symbol v close st st eq_refl) as (_ & added & Ha & _).
  by exists added.
Qed.

Lemma rsi_onMessage_appends raw (st : Rsi.State) :
  ∃ added, alertQueue (Rsi.out (Rsi.onMessage raw st))
           = alertQueue (Rsi.out st) ++ added.
Proof.
  destruct (rsi_onMessage_cases raw st)
    as [[err ->]|[->|(symbol & close & _ & _ & ->)]].
  - exists []. simpl. by rewrite app_nil_r.
  - exists []. by rewrite app_nil_r.
  - unfold Rsi.onWindow. cbv zeta. destruct (Rsi.latestRsi _) as [v|].
    + exact (rsi_alertStep_appends symbol v close (Rsi.setClosePrices symbol _ st)).
    + exists []. simpl. by rewrite app_nil_r.
Qed.

Lemma rsi_onMessage_other raw other (st : Rsi.State) :
  Rsi.messageSymbol raw ≠ Some other →
  rsiView other (Rsi.onMessage raw st) = rsiView other st.
Proof.
  intros Hne.
  destruct (rsi_onMessage_cases raw st)
    as [[err ->]|[->|(symbol & close & Hd & _ & ->)]]; [done|done|].
  apply rsi_decode_symbol in Hd.
  assert (symbol ≠ other) as Hs by congruence.
  unfold rsiView. rewrite rsi_onWindow_closePrices, lookup_insert_ne by done.
  f_equal. unfold Rsi.onWindow. cbv zeta.
  destruct (Rsi.latestRsi _); [by rewrite rsi_alertStep_lastAlert_other|done].
Qed.

Lemma rsi_onMessage_same raw symbol (st1 st2 : Rsi.State) :
  rsiView symbol st1 = rsiView symbol st2 →
  Rsi.messageSymbol raw = Some symbol →
  rsiView symbol (Rsi.onMessage raw st1) = rsiView symbol (Rsi.onMessage raw st2)
  ∧ rsiEmitted raw st1 = rsiEmitted raw st2.
Proof.
  intros [= Hw Hl] Hsym. unfold rsiEmitted.
  destruct (Rsi.decode raw) as [err|[|s close]] eqn:Hd.
  - unfold Rsi.onMessage. rewrite Hd.
    split; [unfold rsiView; simpl; congruence|]. simpl. by rewrite !drop_all.
  - unfold Rsi.onMessage. rewrite Hd.
    split; [unfold rsiView; congruence|]. by rewrite !drop_all.
  - pose proof (rsi_decode_symbol _ _ _ Hd) as Hs.
    assert (s = symbol) as -> by congruence.
    destruct (decide (readable (Rsi.closePrices st1) symbol)) as [Hr|Hr].
    + assert (readable (Rsi.closePrices st2) symbol) as Hr2.
      { destruct Hr as [Hsome|Hout]; [left; by rewrite <- Hw|by right]. }
      rewrite (rsi_onMessage_closed _ _ _ _ Hd Hr).
      rewrite (rsi_onMessage_closed _ _ _ _ Hd Hr2).
      unfold rsiView. rewrite !rsi_onWindow_closePrices, !lookup_insert_eq.
      unfold Rsi.onWindow. cbv zeta. rewrite Hw.
      destruct (Rsi.latestRsi _) as [v|].
      * set (s1 := Rsi.setClosePrices symbol _ st1).
        set (s2 := Rsi.setClosePrices symbol _ st2).
        destruct (rsi_alertStep_local symbol v close s1 s2 Hl)
          as (Hl' & added & Ha1 & Ha2).
        rewrite Hl', Ha1, Ha2. by rewrite !drop_length_app.
      * simpl. rewrite Hl. by rewrite !drop_all.
    + assert (¬ readable (Rsi.closePrices st2) symbol) as Hr2.
      { intros [Hsome|Hout]; apply Hr; [left; by rewrite Hw|by right]. }
      rewrite (rsi_onMessage_inherited _ _ _ _ Hd Hr).
      rewrite (rsi_onMessage_inherited _ _ _ _ Hd Hr2).
      split; [unfold rsiView; simpl; congruence|]. simpl. by rewrite !drop_all.
Qed.

Lemma rsi_run_restricts symbol raws (st1 st2 : Rsi.State) :
  rsiView symbol st1 = rsiView symbol st2 →
  rsiView symbol (Rsi.onMessages raws st1)
  = rsiView symbol (Rsi.onMessages (rsiMessagesOf symbol raws) st2)
  ∧ rsiContributions symbol raws st1
    = rsiContributions symbol (rsiMessagesOf symbol raws) st2.
Proof.
  revert st1 st2. induction raws as [|raw raws IH]; intros st1 st2 Hview; [done|].
  change (Rsi.onMessages (raw :: raws) st1)
    with (Rsi.onMessages raws (Rsi.onMessage raw st1)).
  unfold rsiMessagesOf. rewrite filter_cons. fold (rsiMessagesOf symbol raws).
  cbn [rsiContributions].
  destruct (decide (Rsi.messageSymbol raw = Some symbol)) as [Hsym|Hsym].
  - destruct (rsi_onMessage_same raw symbol st1 st2 Hview Hsym) as [Hview' Hemit].
    destruct (IH _ _ Hview') as [IHv IHc].
    cbn [rsiContributions]. rewrite !bool_decide_eq_true_2 by done.
    split; [exact IHv|]. by rewrite Hemit, IHc.
  - rewrite bool_decide_eq_false_2 by done.
    apply IH. by rewrite rsi_onMessage_other.
Qed.

(** **** Volume bot *)

Lemma volume_decode_symbol raw symbol close volume :
  Volume.decode raw = inr (Volume.Closed symbol close volume) →
  Volume.messageSymbol raw = Some symbol.
Proof.
  unfold Volume.decode, Volume.messageSymbol.
  destruct (Volume.symbolOf raw) as [err|[data s]]; simpl; [done|].
  destruct (getProp data "k") as [err|k]; simpl; [done|].
  destruct (getProp k "x") as [err|x]; simpl; [done|].
  destruct (negb (truthy x)); simpl; [done|].
  destruct (getProp k "c") as [err|c]; simpl; [done|].
  destruct (parseFloat c) as [err|close']; simpl; [done|].
  destruct (getProp k "v") as [err|v]; simpl; [done|].
  destruct (parseFloat v) as [err|volume']; simpl; [done|].
  by intros [= -> _ _].
Qed.

Lemma volume_onMessage_appends raw (st : Volume.State) :
  ∃ added, alertQueue (Volume.out (Volume.onMessage raw st))
           = alertQueue (Volume.out st) ++ added.
Proof.
  destruct (volume_onMessage_cases raw st)
    as [[err ->]|[->|(symbol & close & volume & _ & _ & ->)]].
  - exists []. simpl. by rewrite app_nil_r.
  - exists []. by rewrite app_nil_r.
  - rewrite volume_onWindow_queue. by eexists.
Qed.

Lemma volume_onMessage_other raw other (st : Volume.State) :
  Volume.messageSymbol raw ≠ Some other →
  volumeView other (Volume.onMessage raw st) = volumeView other st.
Proof.
  intros Hne.
  destruct (volume_onMessage_cases raw st)
    as [[err ->]|[->|(symbol & close & volume & Hd & _ & ->)]]; [done|done|].
  apply volume_decode_symbol in Hd.
  assert (symbol ≠ other) as Hs by congruence.
  unfold volumeView. by rewrite volume_onWindow_history, lookup_insert_ne.
Qed.

Lemma volume_onMessage_same raw symbol (st1 st2 : Volume.State) :
  volumeView symbol st1 = volumeView symbol st2 →
  Volume.messageSymbol raw = Some symbol →
  volumeView symbol (Volume.onMessage raw st1)
  = volumeView symbol (Volume.onMessage raw st2)
  ∧ volumeEmitted raw st1 = volumeEmitted raw st2.
Proof.
  unfold volumeView. intros Hw Hsym. unfold volumeEmitted.
  destruct (Volume.decode raw) as [err|[|s close volume]] eqn:Hd.
  - unfold Volume.onMessage. rewrite Hd. split; [done|]. simpl. by rewrite !drop_all.
  - unfold Volume.onMessage. rewrite Hd. split; [done|]. by rewrite !drop_all.
  - pose proof (volume_decode_symbol _ _ _ _ Hd) as Hs.
    assert (s = symbol) as -> by congruence.
    rewrite !(volume_onMessage_closed_queue _ _ _ _ _ Hd), Hw, !drop_length_app.
    split; [|done]. rewrite !volume_onMessage_history, Hd, Hw.
    destruct (decide (readable (Volume.volumeHistory st1) symbol)) as [Hr|Hr].
    + rewrite decide_True; [by rewrite !lookup_insert_eq|].
      destruct Hr as [Hsome|Hout]; [left; by rewrite <- Hw|by right].
    + rewrite decide_False; [done|].
      intros [Hsome|Hout]; apply Hr; [left; by rewrite Hw|by right].
Qed.

Lemma volume_run_restricts symbol raws (st1 st2 : Volume.State) :
  volumeView symbol st1 = volumeView symbol st2 →
  volumeView symbol (Volume.onMessages raws st1)
  = volumeView symbol (Volume.onMessages (volumeMessagesOf symbol raws) st2)
  ∧ volumeContributions symbol raws st1
    = volumeContributions symbol (volumeMessagesOf symbol raws) st2.
Proof.
  revert st1 st2. induction raws as [|raw raws IH]; intros st1 st2 Hview; [done|].
  change (Volume.onMessages (raw :: raws) st1)
    with (Volume.onMessages raws (Volume.onMessage raw st1)).
  unfold volumeMessagesOf. rewrite filter_cons. fold (volumeMessagesOf symbol raws).
  cbn [volumeContributions].
  destruct (decide (Volume.messageSymbol raw = Some symbol)) as [Hsym|Hsym].
  - destruct (volume_onMessage_same raw symbol st1 st2 Hview Hsym) as [Hview' Hemit].
    destruct (IH _ _ Hview') as [IHv IHc].
    cbn [volumeContributions]. rewrite !bool_decide_eq_true_2 by done.
    split; [exact IHv|]. by rewrite Hemit, IHc.
  - rewrite bool_decide_eq_false_2 by done.
    apply IH. by rewrite volume_onMessage_other.
Qed.

(** C9. Per-symbol isolation: a message that is not for symbol [B] (one
    for another symbol, or one so malformed that the handler throws and
    catches) leaves the window and alert state of [B] as they were and
    only appends to the queue; and two runs that start with the same
    state for [B] and carry the same messages for [B], whatever else
    they carry, end with the same window and alert state for [B] and
    with the same alerts enqueued by the messages of [B]. Both bots. *)
Theorem per_symbol_isolation (B raw : string) (l1 l2 : list string)
    (st st1 st2 : Rsi.State) (vst vst1 vst2 : Volume.State) :
  Rsi.messageSymbol raw ≠ Some B →
  Volume.messageSymbol raw ≠ Some B →
  rsiView B st1 = rsiView B st2 →
  volumeView B vst1 = volumeView B vst2 →
  rsiMessagesOf B l1 = rsiMessagesOf B l2 →
  volumeMessagesOf B l1 = volumeMessagesOf B l2 →
  (rsiView B (Rsi.onMessage raw st) = rsiView B st
   ∧ ∃ added, alertQueue (Rsi.out (Rsi.onMessage raw st))
              = alertQueue (Rsi.out st) ++ added)
  ∧ (volumeView B (Volume.onMessage raw vst) = volumeView B vst
     ∧ ∃ added, alertQueue (Volume.out (Volume.onMessage raw vst))
                = alertQueue (Volume.out vst) ++ added)
  ∧ (rsiView B (Rsi.onMessages l1 st1) = rsiView B (Rsi.onMessages l2 st2)
     ∧ rsiContributions B l1 st1 = rsiContributions B l2 st2)
  ∧ (volumeView B (Volume.onMessages l1 vst1) = volumeView B (Volume.onMessages l2 vst2)
     ∧ volumeContributions B l1 vst1 = volumeContributions B l2 vst2).
Proof.
  intros Hraw Hvraw Hview Hvview Hmsgs Hvmsgs. split_and!.
  - by apply rsi_onMessage_other.
  - apply rsi_onMessage_appends.
  - by apply volume_onMessage_other.
  - apply volume_onMessage_appends.
  - destruct (rsi_run_restricts B l1 st1 st1 eq_refl) as [-> _].
    destruct (rsi_run_restricts B l2 st2 st1 (eq_sym Hview)) as [-> _].
    by rewrite Hmsgs.
  - destruct (rsi_run_restricts B l1 st1 st1 eq_refl) as [_ ->].
    destruct (rsi_run_restricts B l2 st2 st1 (eq_sym Hview)) as [_ ->].
    by rewrite Hmsgs.
  - destruct (volume_run_restricts B l1 vst1 vst1 eq_refl) as [-> _].
    destruct (volume_run_restricts B l2 vst2 vst1 (eq_sym Hvview)) as [-> _].
    by rewrite Hvmsgs.
  - destruct (volume_run_restricts B l1 vst1 vst1 eq_refl) as [_ ->].
    destruct (volume_run_restricts B l2 vst2 vst1 (eq_sym Hvview)) as [_ ->].
    by rewrite Hvmsgs.
Qed.

End Isolation.

(* ===================================================================== *)
(** ** The properties on the sample frames                                *)
(* ===================================================================== *)

Lemma bounded_decide (cap : nat) (windows : gmap string (list float)) :
  bool_decide (map_Forall (fun _ (w : list float) => length w ≤ cap) windows) = true →
  bounded cap windows.
Proof. intros Hb. by apply bool_decide_eq_true_1 in Hb. Qed.

Lemma readable_decide (windows : gmap string (list float)) (symbol : string) :
  bool_decide (readable windows symbol) = true → readable windows symbol.
Proof. apply bool_decide_eq_true_1. Qed.


(** The sixteenth rising close gives RSI 100: an alert, and state High. *)
Lemma momentum_transition_witness :
  Rsi.decode (H:=Sample.runtime) "btc-closed" = inr (Rsi.Closed "btcusdt" 100)
  ∧ (∃ a, alertQueue (Rsi.out (Rsi.onMessage (H:=Sample.runtime) "btc-closed" Sample.rising))
          = alertQueue (Rsi.out Sample.rising) ++ [a])
  ∧ Rsi.lastAlert (Rsi.onMessage (H:=Sample.runtime) "btc-closed" Sample.rising)
    = <["btcusdt" := {| Rsi.type := Rsi.high |}]> (Rsi.lastAlert Sample.rising).
Proof.
  split; [reflexivity|].
  destruct (@momentum_transition Sample.runtime "btc-closed" "btcusdt" 100 100
              Sample.rising) as (Hhigh & _); [reflexivity|vm_compute; reflexivity|].
  apply Hhigh; [reflexivity|vm_compute; discriminate].
Defined.

(** Three frames on a window of fifteen closes and on a full volume
    window. *)
Lemma window_bounded_fifo_witness :
  bounded 100 (Rsi.closePrices Sample.rising)
  ∧ bounded 30 (Volume.volumeHistory Sample.quiet)
  ∧ default [] (Rsi.closePrices
                  (Rsi.onMessages (H:=Sample.runtime)
                     ["btc-closed"; "eth-closed"; "btc-forming"] Sample.rising)
                !! "btcusdt")
    = lastN 100 (default [] (Rsi.closePrices Sample.rising !! "btcusdt")
                   ++ closesFor (H:=Sample.runtime) "btcusdt"
                        ["btc-closed"; "eth-closed"; "btc-forming"])
  ∧ default [] (Volume.volumeHistory
                  (Volume.onMessages (H:=Sample.runtime)
                     ["btc-closed"; "eth-closed"; "btc-forming"] Sample.quiet)
                !! "btcusdt")
    = lastN 30 (default [] (Volume.volumeHistory Sample.quiet !! "btcusdt")
                  ++ volumesFor (H:=Sample.runtime) "btcusdt"
                       ["btc-closed"; "eth-closed"; "btc-forming"]).
Proof.
  assert (bounded 100 (Rsi.closePrices Sample.rising)) as Hb
    by (apply bounded_decide; vm_compute; reflexivity).
  assert (bounded 30 (Volume.volumeHistory Sample.quiet)) as Hvb
    by (apply bounded_decide; vm_compute; reflexivity).
  split; [exact Hb|]. split; [exact Hvb|].
  destruct (@window_bounded_fifo Sample.runtime "btcusdt"
              ["btc-closed"; "eth-closed"; "btc-forming"] Sample.rising Sample.quiet
              Hb Hvb) as (Hw & _ & Hvw & _).
  split; [apply Hw|apply Hvw]; apply readable_decide; vm_compute; reflexivity.
Defined.

(** A closed candle of 60,000 on thirty candles of 10,000. *)
Lemma volume_spike_iff_witness :
  Volume.decode (H:=Sample.runtime) "btc-closed"
    = inr (Volume.Closed "btcusdt" 100 600)
  ∧ ∃ a, alertQueue (Volume.out (Volume.onMessage (H:=Sample.runtime)
                                   "btc-closed" Sample.quiet))
         = alertQueue (Volume.out Sample.quiet) ++ [a].
Proof.
  split; [reflexivity|].
  destruct (@volume_spike_iff Sample.runtime "btc-closed" "btcusdt" 100 600
              Sample.quiet) as (Hiff & _); [reflexivity|].
  apply Hiff. vm_compute. split; [lia|split; reflexivity].
Defined.

(** Sixteen prices after the push: the RSI is defined. *)
Lemma rsi_defined_iff_sixteen_witness :
  Rsi.decode (H:=Sample.runtime) "btc-closed" = inr (Rsi.Closed "btcusdt" 100)
  ∧ is_Some (Rsi.latestRsi
               (pushBounded 100 100
                  (default [] (Rsi.closePrices Sample.rising !! "btcusdt")))).
Proof.
  split; [reflexivity|].
  destruct (@rsi_defined_iff_sixteen Sample.runtime "btc-closed" "btcusdt" 100
              Sample.rising) as (Hread & _); [reflexivity|].
  destruct (Hread (default [] (Rsi.closePrices Sample.rising !! "btcusdt")))
    as (_ & Hiff & _); [reflexivity|].
  apply Hiff. vm_compute. lia.
Defined.

(** Two queued alerts, two ticks, the second delivery failing. *)
Lemma dispatcher_fifo_at_most_once_witness :
  sent (drainTicks [true; false]
          {| alertQueue := [ {| text := "first" |}; {| text := "second" |} ];
             sent := []; console := [] |})
  = ["first"; "second"].
Proof.
  destruct (dispatcher_fifo_at_most_once
              {| alertQueue := [ {| text := "first" |}; {| text := "second" |} ];
                 sent := []; console := [] |}
              [true; false] false [Enqueue {| text := "third" |}; Tick true])
    as (_ & _ & _ & Hsent & _); [reflexivity|].
  exact Hsent.
Defined.

(** The two traces from the initial state. *)
Lemma edge_trigger_traces_witness :
  alertState "btcusdt" Rsi.initial = Rsi.null
  ∧ Rsi.feed (H:=Sample.runtime) "btcusdt" [90; 95; 85; 92]%float 100 Rsi.initial
    = [1; 1; 1; 1]
  ∧ Rsi.feed (H:=Sample.runtime) "btcusdt" [90; 70; 92]%float 100 Rsi.initial
    = [1; 1; 2].
Proof.
  split; [reflexivity|].
  apply (@edge_trigger_traces Sample.runtime "btcusdt" 100 Rsi.initial).
  reflexivity.
Defined.


(** A forming candle on both bots. *)
Lemma forming_ignored_witness :
  truthy (JBool false) = false
  ∧ Rsi.onMessage (H:=Sample.runtime) "btc-forming" Sample.rising = Sample.rising
  ∧ Volume.onMessage (H:=Sample.runtime) "btc-forming" Sample.quiet = Sample.quiet.
Proof.
  split; [reflexivity|].
  apply (@forming_ignored Sample.runtime "btc-forming" "btcusdt"
           (Sample.payload "BTCUSDT" (Sample.candle false "101" "5"))
           (Sample.candle false "101" "5") (JBool false));
    reflexivity.
Defined.

(** A frame for ETH that throws, and two streams that agree on BTC. *)
Lemma per_symbol_isolation_witness :
  Rsi.messageSymbol (H:=Sample.runtime) "eth-no-kline" = Some "ethusdt"
  ∧ rsiView "btcusdt" (Rsi.onMessage (H:=Sample.runtime) "eth-no-kline" Sample.rising)
    = rsiView "btcusdt" Sample.rising
  ∧ rsiView "btcusdt"
      (Rsi.onMessages (H:=Sample.runtime) ["btc-closed"; "eth-closed"] Sample.rising)
    = rsiView "btcusdt"
        (Rsi.onMessages (H:=Sample.runtime) ["eth-no-kline"; "btc-closed"; "not json"]
           Sample.rising).
Proof.
  split; [reflexivity|].
  destruct (@per_symbol_isolation Sample.runtime "btcusdt" "eth-no-kline"
              ["btc-closed"; "eth-closed"] ["eth-no-kline"; "btc-closed"; "not json"]
              Sample.rising Sample.rising Sample.rising
              Sample.quiet Sample.quiet Sample.quiet)
    as ((Hone & _) & _ & (Hruns & _) & _);
    [vm_compute; discriminate|vm_compute; discriminate|reflexivity|reflexivity
    |vm_compute; reflexivity|vm_compute; reflexivity|].
  split; [exact Hone|exact Hruns].
Defined.


(** The first candle of a symbol on either bot: the sample is stored,
    nothing is enqueued, and no error is logged. *)
Example first_candle_is_stored :
  Rsi.onMessage (H:=Sample.runtime) "btc-closed" Rsi.initial
  = Rsi.setClosePrices "btcusdt" [100%float] Rsi.initial
  ∧ Volume.volumeHistory (Volume.onMessage (H:=Sample.runtime) "btc-closed"
                            Volume.initial) !! "btcusdt"
    = Some [60000%float]
  ∧ alertQueue (Volume.out (Volume.onMessage (H:=Sample.runtime) "btc-closed"
                              Volume.initial)) = []
  ∧ console (Volume.out (Volume.onMessage (H:=Sample.runtime) "btc-closed"
                           Volume.initial))
    = [Log "📊 BTCUSDT - Volume: $0.00k, Avg: $0.00k"].
Proof. vm_compute. by split_and!. Qed.

(** A name inherited from [Object.prototype] is never given a window,
    whatever the stream brings for it, and the other symbols are served
    as usual. *)
Example inherited_name_gets_no_window :
  Rsi.closePrices
    (Rsi.onMessages (H:=Sample.runtime)
       ["constructor-closed"; "btc-closed"; "constructor-closed"] Rsi.initial)
  = {[ "btcusdt" := [100%float] ]}
  ∧ Volume.volumeHistory
      (Volume.onMessages (H:=Sample.runtime)
         ["constructor-closed"; "btc-closed"; "constructor-closed"] Volume.initial)
    = {[ "btcusdt" := [60000%float] ]}.
Proof. vm_compute. by split. Qed.

(** The threshold follows the mean of the history: 60,000 is a spike on
    thirty candles of 10,000 and none on thirty candles of 1,000,000. *)
Example spike_follows_the_mean :
  mean [10; 10; 10; 10]%float = 10%float
  ∧ Volume.average (replicate 30 1000000%float) = 1000000%float
  ∧ Volume.spike (replicate 30 1000000%float) 60000 = false
  ∧ Volume.spike (replicate 30 10000%float) 60000 = true
  ∧ Volume.spike (replicate 30 10000%float) 40000 = false.
Proof. vm_compute. by split_and!. Qed.

(** A spike that lasts re-alerts: two qualifying candles in a row on the
    quiet window, two alerts. *)
Example sustained_spike_realerts :
  length (alertQueue (Volume.out
            (Volume.onMessages (H:=Sample.runtime) ["btc-closed"; "btc-closed"]
               Sample.quiet))) = 2.
Proof. vm_compute. reflexivity. Qed.

(** The average of an empty history is not a number. *)
Example average_of_nothing : PrimFloat.is_nan (Volume.average []) = true.
Proof. reflexivity. Qed.

(* ===================================================================== *)
(** ** Further properties of the handlers                                 *)
(* ===================================================================== *)

(** *** A window seeded beyond its capacity *)

Lemma pushBounded_overfull (cap : nat) (x : float) (w : list float) :
  cap < length w →
  pushBounded cap x w = tail w ++ [x] ∧ length (pushBounded cap x w) = length w.
Proof.
  intros Hlt. unfold pushBounded. rewrite length_app. simpl.
  destruct (Nat.ltb_spec cap (length w + 1)); [|lia].
  destruct w as [|a w]; simpl in *; [lia|].
  split; [done|]. rewrite length_app. simpl. lia.
Qed.

Section Overfull.
Context `{Runtime}.

(** X1. The handlers evict one sample per push and never more: a window
    that holds more samples than its capacity (a backfill longer than
    100, or 30) keeps its length on every closed candle, losing its
    oldest sample for the new one. *)
Theorem overfull_window_keeps_length (raw symbol : string) (close volume : float)
    (w vw : list float) (st : Rsi.State) (vst : Volume.State) :
  Rsi.decode raw = inr (Rsi.Closed symbol close) →
  Volume.decode raw = inr (Volume.Closed symbol close volume) →
  Rsi.closePrices st !! symbol = Some w → 100 < length w →
  Volume.volumeHistory vst !! symbol = Some vw → 30 < length vw →
  (Rsi.closePrices (Rsi.onMessage raw st) !! symbol = Some (tail w ++ [close])
   ∧ length (tail w ++ [close]) = length w)
  ∧ (Volume.volumeHistory (Volume.onMessage raw vst) !! symbol
     = Some (tail vw ++ [(volume * close)%float])
     ∧ length (tail vw ++ [(volume * close)%float]) = length vw).
Proof.
  intros Hd Hvd Hw Hlen Hvw Hvlen. split.
  - rewrite rsi_onMessage_closePrices, Hd.
    rewrite decide_True by (left; by rewrite Hw).
    rewrite lookup_insert_eq, Hw. simpl.
    destruct (pushBounded_overfull 100 close w Hlen) as [Heq Hl].
    by rewrite <- Heq.
  - rewrite volume_onMessage_history, Hvd.
    rewrite decide_True by (left; by rewrite Hvw).
    rewrite lookup_insert_eq, Hvw. simpl.
    destruct (pushBounded_overfull 30 (volume * close) vw Hvlen) as [Heq Hl].
    change Volume.candleLimit with 30. by rewrite <- Heq.
Qed.

End Overfull.

(** *** Runs of the momentum decision *)

Section Runs.
Context `{Runtime}.
Implicit Types (st : Rsi.State) (symbol : string) (v close : float).

Lemma alertStep_hold_low symbol v close st :
  lt v Rsi.rsiLower = true → alertState symbol st = Rsi.low →
  Rsi.alertStep symbol v close st = st.
Proof.
  intros Hv Hs. apply alertStep_hold.
  - intros [Hup _]. apply above_upper_not_below_lower in Hup. congruence.
  - intros [_ Hne]. by apply Hne.
  - intros [Hlo _]. apply ge_not_lt in Hlo. congruence.
Qed.

Lemma feed_all_high_held symbol metrics close st :
  Forall (fun v => gt v Rsi.rsiUpper = true) metrics →
  alertState symbol st = Rsi.high →
  Rsi.feed symbol metrics close st
  = replicate (length metrics) (length (alertQueue (Rsi.out st))).
Proof.
  intros Hall Hs. induction Hall as [|v metrics Hv _ IH]; [done|].
  rewrite feed_holds by done. simpl. by rewrite IH.
Qed.

Lemma feed_all_low_held symbol metrics close st :
  Forall (fun v => lt v Rsi.rsiLower = true) metrics →
  alertState symbol st = Rsi.low →
  Rsi.feed symbol metrics close st
  = replicate (length metrics) (length (alertQueue (Rsi.out st))).
Proof.
  intros Hall Hs. induction Hall as [|v metrics Hv _ IH]; [done|].
  rewrite feed_cons, alertStep_hold_low by done. simpl. by rewrite IH.
Qed.

(** X2. Edge triggering for runs of any length: values that all lie
    above 80, met outside state High, enqueue exactly one alert, at the
    first of them; values that all lie below 20, met outside state Low,
    likewise. The lists give the length of the queue after each value. *)
Theorem excursion_alerts_once symbol (highs lows : list float) close st :
  Forall (fun v => gt v 80 = true) highs →
  Forall (fun v => lt v 20 = true) lows →
  let n := length (alertQueue (Rsi.out st)) in
  (alertState symbol st ≠ Rsi.high →
   Rsi.feed symbol highs close st = replicate (length highs) (n + 1))
  ∧ (alertState symbol st ≠ Rsi.low →
     Rsi.feed symbol lows close st = replicate (length lows) (n + 1))
  ∧ (alertState symbol st = Rsi.high →
     Rsi.feed symbol highs close st = replicate (length highs) n)
  ∧ (alertState symbol st = Rsi.low →
     Rsi.feed symbol lows close st = replicate (length lows) n).
Proof.
  intros Hhighs Hlows n. subst n. split_and!.
  - intros Hs. destruct Hhighs as [|v highs Hv Hrest]; [done|].
    destruct (feed_fires symbol v highs close st Hv Hs) as (st1 & Hs1 & Hq1 & ->).
    rewrite feed_all_high_held by done. rewrite Hq1. simpl.
    by replace (length (alertQueue (Rsi.out st)) + 1)
      with (S (length (alertQueue (Rsi.out st)))) by lia.
  - intros Hs. destruct Hlows as [|v lows Hv Hrest]; [done|].
    rewrite feed_cons, alertStep_fire_low by done.
    rewrite feed_all_low_held; [|done|apply alertState_setLastAlert].
    simpl. rewrite length_app. simpl. done.
  - intros Hs. by apply feed_all_high_held.
  - intros Hs. by apply feed_all_low_held.
Qed.

(** X3. What an alert says is what the state becomes: the decision
    either enqueues nothing, or enqueues one alert whose text reads
    "RSI high" with the red mark and leaves the symbol in state High,
    or one whose text reads "RSI low" with the green mark and leaves it
    in state Low. *)
Theorem alert_text_matches_state symbol v close st :
  let st' := Rsi.alertStep symbol v close st in
  let base := removeFirst "USDT" (toUpperCase symbol) in
  let wording mark kind :=
    mark +:+ " *#" +:+ base +:+ "* RSI " +:+ kind +:+ ": *"
      +:+ toFixed v 2 +:+ "* at $" +:+ toFixed close 2 in
  alertQueue (Rsi.out st') = alertQueue (Rsi.out st)
  ∨ (alertQueue (Rsi.out st')
     = alertQueue (Rsi.out st) ++ [ {| text := wording "🔴" "high" |} ]
     ∧ alertState symbol st' = Rsi.high)
  ∨ (alertQueue (Rsi.out st')
     = alertQueue (Rsi.out st) ++ [ {| text := wording "🟢" "low" |} ]
     ∧ alertState symbol st' = Rsi.low).
Proof.
  intros st' base wording. subst st'. unfold Rsi.alertStep. cbv zeta.
  destruct (gt v Rsi.rsiUpper) eqn:Hup; cbn [andb].
  - destruct (negb _).
    + right; left. split; [|apply alertState_setLastAlert].
      simpl. unfold Rsi.sendRsiAlert. cbv zeta. simpl. by rewrite Hup.
    + apply above_upper_not_below_lower in Hup as Hlo. rewrite Hlo. cbn [andb].
      left. by destruct (ge v Rsi.rsiLower && le v Rsi.rsiUpper).
  - destruct (lt v Rsi.rsiLower && negb _).
    + right; right. split; [|apply alertState_setLastAlert].
      simpl. unfold Rsi.sendRsiAlert. cbv zeta. simpl. by rewrite Hup.
    + left. by destruct (ge v Rsi.rsiLower && le v Rsi.rsiUpper).
Qed.

End Runs.

(** *** The handler and the timer on one event loop *)

Import BootProps.

Section Loop.
Context `{Runtime}.

Lemma rsi_alertStep_sent symbol v close (st : Rsi.State) :
  sent (Rsi.out (Rsi.alertStep symbol v close st)) = sent (Rsi.out st).
Proof.
  unfold Rsi.alertStep. cbv zeta.
  destruct (gt v Rsi.rsiUpper && _); [done|].
  destruct (lt v Rsi.rsiLower && _); [done|].
  by destruct (ge v Rsi.rsiLower && _).
Qed.

Lemma rsi_onMessage_sent raw (st : Rsi.State) :
  sent (Rsi.out (Rsi.onMessage raw st)) = sent (Rsi.out st).
Proof.
  destruct (rsi_onMessage_cases raw st)
    as [[err ->]|[->|(symbol & close & _ & _ & ->)]]; [done|done|].
  unfold Rsi.onWindow. cbv zeta.
  destruct (Rsi.latestRsi _); [by rewrite rsi_alertStep_sent|done].
Qed.

Lemma volume_onMessage_sent raw (st : Volume.State) :
  sent (Volume.out (Volume.onMessage raw st)) = sent (Volume.out st).
Proof.
  destruct (volume_onMessage_cases raw st)
    as [[err ->]|[->|(symbol & close & volume & _ & _ & ->)]]; [done|done|].
  unfold Volume.onWindow. cbv zeta. by destruct (Volume.spike _ _).
Qed.

Lemma rsi_onMessage_queue raw (st : Rsi.State) :
  alertQueue (Rsi.out (Rsi.onMessage raw st))
  = alertQueue (Rsi.out st) ++ rsiEmitted raw st.
Proof.
  unfold rsiEmitted. destruct (rsi_onMessage_appends raw st) as [added ->].
  by rewrite drop_length_app.
Qed.

Lemma volume_onMessage_queue raw (st : Volume.State) :
  alertQueue (Volume.out (Volume.onMessage raw st))
  = alertQueue (Volume.out st) ++ volumeEmitted raw st.
Proof.
  unfold volumeEmitted. destruct (volume_onMessage_appends raw st) as [added ->].
  by rewrite drop_length_app.
Qed.

Lemma rsi_loop_conserves evs (st : Rsi.State) :
  sent (Rsi.out (RsiBoot.loop evs st))
    ++ (text <$> alertQueue (Rsi.out (RsiBoot.loop evs st)))
  = sent (Rsi.out st) ++ (text <$> (alertQueue (Rsi.out st) ++ rsiProduced evs st)).
Proof.
  revert st. induction evs as [|ev evs IH]; intros st.
  - simpl. by rewrite app_nil_r.
  - change (RsiBoot.loop (ev :: evs) st)
      with (RsiBoot.loop evs (RsiBoot.loopStep st ev)).
    rewrite IH. cbn [rsiProduced]. destruct ev as [raw|delivered].
    + cbn [RsiBoot.loopStep]. rewrite rsi_onMessage_sent, rsi_onMessage_queue.
      by rewrite <- app_assoc.
    + cbn [RsiBoot.loopStep Rsi.withOut Rsi.out]. rewrite app_nil_l.
      rewrite drainTick_queue, drainTick_sent.
      destruct (alertQueue (Rsi.out st)) as [|next rest]; simpl;
        [by rewrite app_nil_r|by rewrite <- app_assoc].
Qed.

Lemma volume_loop_conserves evs (st : Volume.State) :
  sent (Volume.out (VolumeBoot.loop evs st))
    ++ (text <$> alertQueue (Volume.out (VolumeBoot.loop evs st)))
  = sent (Volume.out st)
      ++ (text <$> (alertQueue (Volume.out st) ++ volumeProduced evs st)).
Proof.
  revert st. induction evs as [|ev evs IH]; intros st.
  - simpl. by rewrite app_nil_r.
  - change (VolumeBoot.loop (ev :: evs) st)
      with (VolumeBoot.loop evs (VolumeBoot.loopStep st ev)).
    rewrite IH. cbn [volumeProduced]. destruct ev as [raw|delivered].
    + cbn [VolumeBoot.loopStep]. rewrite volume_onMessage_sent, volume_onMessage_queue.
      by rewrite <- app_assoc.
    + cbn [VolumeBoot.loopStep Volume.withOut Volume.out]. rewrite app_nil_l.
      rewrite drainTick_queue, drainTick_sent.
      destruct (alertQueue (Volume.out st)) as [|next rest]; simpl;
        [by rewrite app_nil_r|by rewrite <- app_assoc].
Qed.

(** X4. End to end, first in first out: however message callbacks and
    timer ticks interleave, what has been handed to Telegram followed
    by what is still queued is what was there at the start followed by
    the alerts the callbacks produced, in the order they produced them:
    none lost, none repeated, none overtaken. The callbacks themselves
    never send. Both bots. *)
Theorem loop_delivers_in_order (evs : list RsiBoot.LoopEvent) (raw : string)
    (st : Rsi.State) (vst : Volume.State) :
  (sent (Rsi.out (RsiBoot.loop evs st))
     ++ (text <$> alertQueue (Rsi.out (RsiBoot.loop evs st)))
   = sent (Rsi.out st) ++ (text <$> (alertQueue (Rsi.out st) ++ rsiProduced evs st)))
  ∧ (sent (Volume.out (VolumeBoot.loop evs vst))
       ++ (text <$> alertQueue (Volume.out (VolumeBoot.loop evs vst)))
     = sent (Volume.out vst)
         ++ (text <$> (alertQueue (Volume.out vst) ++ volumeProduced evs vst)))
  ∧ sent (Rsi.out (Rsi.onMessage raw st)) = sent (Rsi.out st)
  ∧ sent (Volume.out (Volume.onMessage raw vst)) = sent (Volume.out vst).
Proof.
  split_and!.
  - apply rsi_loop_conserves.
  - apply volume_loop_conserves.
  - apply rsi_onMessage_sent.
  - apply volume_onMessage_sent.
Qed.

End Loop.

(** *** Not-a-number samples in the volume window *)

Lemma isNaN_spec (x : float) : isNaN x ↔ Prim2SF x = S754_nan.
Proof.
  unfold isNaN. split.
  - intros Hx. unfold Prim2SF. by rewrite Hx.
  - intros Hx. unfold PrimFloat.is_nan. rewrite FloatAxioms.eqb_spec, Hx. done.
Qed.

Lemma add_nan_l (x y : float) : isNaN x → isNaN (x + y).
Proof. rewrite !isNaN_spec, add_spec. intros ->. done. Qed.

Lemma add_nan_r (x y : float) : isNaN y → isNaN (x + y).
Proof. rewrite !isNaN_spec, add_spec. intros ->. by destruct (Prim2SF x). Qed.

Lemma div_nan_l (x y : float) : isNaN x → isNaN (x / y).
Proof. rewrite !isNaN_spec, div_spec. intros ->. done. Qed.

Lemma mul_nan_r (x y : float) : isNaN y → isNaN (x * y).
Proof. rewrite !isNaN_spec, mul_spec. intros ->. by destruct (Prim2SF x). Qed.

Lemma ge_nan_l (x y : float) : isNaN x → ge x y = false.
Proof.
  rewrite isNaN_spec. unfold ge. rewrite leb_spec. intros ->.
  by destruct (Prim2SF y).
Qed.

Lemma ge_nan_r (x y : float) : isNaN y → ge x y = false.
Proof. rewrite isNaN_spec. unfold ge. rewrite leb_spec. intros ->. done. Qed.

Lemma fold_add_nan_acc (xs : list float) (acc : float) :
  isNaN acc → isNaN (fold_left PrimFloat.add xs acc).
Proof.
  revert acc. induction xs as [|x xs IH]; intros acc Hacc; [done|].
  simpl. apply IH. by apply add_nan_l.
Qed.

Lemma total_nan (xs : list float) : Exists isNaN xs → isNaN (total xs).
Proof.
  unfold total. intros Hex. generalize 0%float.
  induction Hex as [x xs Hx|x xs _ IH]; intros start; simpl.
  - apply fold_add_nan_acc. by apply add_nan_r.
  - apply IH.
Qed.

Section Poison.
Context `{Runtime}.

(** X5. A sample that is not a number silences the spike alert: on a
    closed candle whose notional volume is NaN (a volume or a close
    that does not parse), and on every closed candle while such a
    sample sits in the stored history, nothing is enqueued, whatever
    the volume. *)
Theorem nan_silences_spike (raw symbol : string) (close volume : float)
    (st : Volume.State) :
  Volume.decode raw = inr (Volume.Closed symbol close volume) →
  isNaN (volume * close)
  ∨ Exists isNaN (default [] (Volume.volumeHistory st !! symbol)) →
  alertQueue (Volume.out (Volume.onMessage raw st)) = alertQueue (Volume.out st).
Proof.
  intros Hd Hnan.
  rewrite (volume_onMessage_closed_queue _ _ _ _ _ Hd).
  set (history := default [] (Volume.volumeHistory st !! symbol)) in *.
  assert (Volume.spike history (volume * close) = false) as ->;
    [|by rewrite app_nil_r].
  unfold Volume.spike. destruct Hnan as [Hv|Hh].
  - rewrite (ge_nan_l _ 50000 Hv). apply andb_false_r.
  - rewrite (ge_nan_r (volume * close)
               (Volume.volumeMultiplier * Volume.average history)).
    + by rewrite andb_false_r.
    + apply mul_nan_r. unfold Volume.average. apply div_nan_l. by apply total_nan.
Qed.

End Poison.

(** *** Warm-up *)

Lemma latestRsi_short (arr : list float) :
  length arr < Rsi.rsiPeriod → Rsi.latestRsi arr = None.
Proof.
  intros Hlt. unfold Rsi.latestRsi.
  destruct (Nat.leb_spec Rsi.rsiPeriod (length arr)); [lia|done].
Qed.

Lemma pushBounded_grows (cap : nat) (x : float) (w : list float) :
  length w < cap → length (pushBounded cap x w) = S (length w).
Proof.
  intros Hlt. unfold pushBounded. rewrite length_app. simpl.
  destruct (Nat.ltb_spec cap (length w + 1)); [lia|].
  rewrite length_app. simpl. lia.
Qed.

Section WarmUp.
Context `{Runtime}.

Lemma closesFor_cons symbol raw raws :
  closesFor symbol (raw :: raws) = closesFor symbol [raw] ++ closesFor symbol raws.
Proof. unfold closesFor. by rewrite <- omap_app. Qed.

Lemma volumesFor_cons symbol raw raws :
  volumesFor symbol (raw :: raws) = volumesFor symbol [raw] ++ volumesFor symbol raws.
Proof. unfold volumesFor. by rewrite <- omap_app. Qed.

(** One message while the window of [symbol] is short of fifteen
    closes, the close of the message counted. *)
Lemma rsi_short_step symbol raw (st : Rsi.State) :
  length (default [] (Rsi.closePrices st !! symbol))
    + length (closesFor symbol [raw]) < 15 →
  Rsi.lastAlert (Rsi.onMessage raw st) !! symbol = Rsi.lastAlert st !! symbol
  ∧ (Rsi.messageSymbol raw = Some symbol → rsiEmitted raw st = [])
  ∧ length (default [] (Rsi.closePrices (Rsi.onMessage raw st) !! symbol))
    ≤ length (default [] (Rsi.closePrices st !! symbol))
        + length (closesFor symbol [raw]).
Proof.
  intros Hlen. unfold rsiEmitted.
  destruct (rsi_onMessage_cases raw st)
    as [[err ->]|[->|(s & close & Hd & Hr & ->)]].
  - simpl. rewrite drop_all. split_and!; [done|done|lia].
  - rewrite drop_all. split_and!; [done|done|lia].
  - revert Hlen. unfold closesFor. simpl. rewrite Hd.
    rewrite rsi_onWindow_closePrices.
    case_bool_decide as Hs; simpl; intros Hlen.
    + subst s. rewrite lookup_insert_eq. simpl.
      set (w := default [] (Rsi.closePrices st !! symbol)) in *.
      assert (length (pushBounded 100 close w) = S (length w)) as Hpush
        by (apply pushBounded_grows; lia).
      unfold Rsi.onWindow. cbv zeta.
      rewrite latestRsi_short by (unfold Rsi.rsiPeriod; lia).
      simpl. rewrite drop_all. split_and!; [done|done|lia].
    + rewrite lookup_insert_ne by done.
      apply rsi_decode_symbol in Hd. split_and!; [|congruence|lia].
      unfold Rsi.onWindow. cbv zeta.
      destruct (Rsi.latestRsi _); [by rewrite rsi_alertStep_lastAlert_other|done].
Qed.

(** One message while the history of [symbol] holds fewer than thirty
    volumes before it. *)
Lemma volume_short_step symbol raw (st : Volume.State) :
  length (default [] (Volume.volumeHistory st !! symbol))
    + length (volumesFor symbol [raw]) ≤ 30 →
  (Volume.messageSymbol raw = Some symbol → volumeEmitted raw st = [])
  ∧ length (default [] (Volume.volumeHistory (Volume.onMessage raw st) !! symbol))
    ≤ length (default [] (Volume.volumeHistory st !! symbol))
        + length (volumesFor symbol [raw]).
Proof.
  intros Hlen. unfold volumeEmitted. rewrite volume_onMessage_history.
  revert Hlen. unfold volumesFor. simpl.
  destruct (Volume.decode raw) as [err|[|s close volume]] eqn:Hd.
  - unfold Volume.onMessage. rewrite Hd. simpl. intros _. rewrite drop_all.
    split; [done|lia].
  - unfold Volume.onMessage. rewrite Hd. simpl. intros _. rewrite drop_all.
    split; [done|lia].
  - rewrite (volume_onMessage_closed_queue _ _ _ _ _ Hd), drop_length_app.
    case_bool_decide as Hs; simpl; intros Hlen.
    + subst s.
      set (w := default [] (Volume.volumeHistory st !! symbol)) in *.
      rewrite spike_underfilled by lia. split; [done|].
      destruct (decide _); [|fold w; lia].
      rewrite lookup_insert_eq. simpl.
      rewrite pushBounded_grows; unfold Volume.candleLimit; lia.
    + apply volume_decode_symbol in Hd. split; [congruence|].
      destruct (decide _); [|lia]. rewrite lookup_insert_ne by done. lia.
Qed.

End WarmUp.

Section Silence.
Context `{Runtime}.

Lemma rsi_warm_up symbol raws (st : Rsi.State) :
  length (default [] (Rsi.closePrices st !! symbol))
    + length (closesFor symbol raws) < 15 →
  rsiContributions symbol raws st = []
  ∧ Rsi.lastAlert (Rsi.onMessages raws st) !! symbol = Rsi.lastAlert st !! symbol.
Proof.
  revert st. induction raws as [|raw raws IH]; intros st Hlen; [done|].
  rewrite closesFor_cons, length_app in Hlen.
  destruct (rsi_short_step symbol raw st) as (Hl & Hem & Hw); [lia|].
  destruct (IH (Rsi.onMessage raw st)) as [IHc IHl]; [lia|].
  change (Rsi.onMessages (raw :: raws) st)
    with (Rsi.onMessages raws (Rsi.onMessage raw st)).
  cbn [rsiContributions]. rewrite IHc, IHl, Hl, app_nil_r. split; [|done].
  case_bool_decide; [by apply Hem|done].
Qed.

Lemma volume_warm_up symbol raws (st : Volume.State) :
  length (default [] (Volume.volumeHistory st !! symbol))
    + length (volumesFor symbol raws) ≤ 30 →
  volumeContributions symbol raws st = [].
Proof.
  revert st. induction raws as [|raw raws IH]; intros st Hlen; [done|].
  rewrite volumesFor_cons, length_app in Hlen.
  destruct (volume_short_step symbol raw st) as (Hem & Hw); [lia|].
  cbn [volumeContributions]. rewrite IH by lia. rewrite app_nil_r.
  case_bool_decide; [by apply Hem|done].
Qed.

(** X6. Warm-up is silent, on each bot by itself. Along a stream of the
    momentum bot on which the window of a symbol, the closes of the
    stream counted, stays short of fifteen prices, the bot enqueues
    nothing for the symbol and leaves its alert state alone. Along a
    stream of the volume bot, the bot enqueues nothing for a symbol up
    to and including the closed candle that brings its history to thirty
    entries: from an empty history, the first thirty closed candles. A
    symbol whose backfill failed is thus mute for that long. *)
Theorem warm_up_is_silent (symbol : string) (raws vraws : list string)
    (st : Rsi.State) (vst : Volume.State) :
  (length (default [] (Rsi.closePrices st !! symbol))
     + length (closesFor symbol raws) < 15 →
   rsiContributions symbol raws st = []
   ∧ Rsi.lastAlert (Rsi.onMessages raws st) !! symbol = Rsi.lastAlert st !! symbol)
  ∧ (length (default [] (Volume.volumeHistory vst !! symbol))
       + length (volumesFor symbol vraws) ≤ 30 →
     volumeContributions symbol vraws vst = []).
Proof.
  split; [apply rsi_warm_up|apply volume_warm_up].
Qed.

End Silence.

(** *** The backlog *)

Section Backlog.
Context `{Runtime}.

Lemma rsi_emitted_at_most_one raw (st : Rsi.State) : length (rsiEmitted raw st) ≤ 1.
Proof.
  unfold rsiEmitted.
  destruct (rsi_onMessage_cases raw st)
    as [[err ->]|[->|(symbol & close & _ & _ & ->)]].
  - simpl. rewrite drop_all. simpl. lia.
  - rewrite drop_all. simpl. lia.
  - unfold Rsi.onWindow. cbv zeta. destruct (Rsi.latestRsi _) as [v|].
    + unfold Rsi.alertStep. cbv zeta.
      destruct (gt v Rsi.rsiUpper && _).
      { simpl. rewrite drop_length_app. simpl. lia. }
      destruct (lt v Rsi.rsiLower && _).
      { simpl. rewrite drop_length_app. simpl. lia. }
      destruct (ge v Rsi.rsiLower && _); simpl; rewrite drop_all; simpl; lia.
    + simpl. rewrite drop_all. simpl. lia.
Qed.

Lemma volume_emitted_at_most_one raw (st : Volume.State) :
  length (volumeEmitted raw st) ≤ 1.
Proof.
  unfold volumeEmitted.
  destruct (volume_onMessage_cases raw st)
    as [[err ->]|[->|(symbol & close & volume & _ & _ & ->)]].
  - simpl. rewrite drop_all. simpl. lia.
  - rewrite drop_all. simpl. lia.
  - rewrite volume_onWindow_queue, drop_length_app.
    destruct (Volume.spike _ _); simpl; lia.
Qed.

Lemma drainTick_sent_length delivered (o : Outbox) :
  length (sent o) ≤ length (sent (drainTick delivered o)) ≤ S (length (sent o)).
Proof.
  rewrite drainTick_sent, length_app, length_fmap.
  destruct (alertQueue o); simpl; lia.
Qed.

Lemma rsi_loop_counts evs (st : Rsi.State) :
  length (rsiProduced evs st) ≤ messages evs
  ∧ length (sent (Rsi.out st)) ≤ length (sent (Rsi.out (RsiBoot.loop evs st)))
    ≤ length (sent (Rsi.out st)) + ticks evs.
Proof.
  revert st. induction evs as [|ev evs IH]; intros st; [simpl; lia|].
  change (RsiBoot.loop (ev :: evs) st)
    with (RsiBoot.loop evs (RsiBoot.loopStep st ev)).
  destruct (IH (RsiBoot.loopStep st ev)) as (IHp & IHs).
  cbn [rsiProduced]. rewrite length_app.
  destruct ev as [raw|delivered]; unfold messages, ticks in *; cbn [List.filter length].
  - pose proof (rsi_emitted_at_most_one raw st).
    cbn [RsiBoot.loopStep] in *. rewrite rsi_onMessage_sent in IHs. lia.
  - pose proof (drainTick_sent_length delivered (Rsi.out st)).
    cbn [RsiBoot.loopStep Rsi.withOut Rsi.out] in *. simpl. lia.
Qed.

Lemma volume_loop_counts evs (st : Volume.State) :
  length (volumeProduced evs st) ≤ messages evs
  ∧ length (sent (Volume.out st))
    ≤ length (sent (Volume.out (VolumeBoot.loop evs st)))
    ≤ length (sent (Volume.out st)) + ticks evs.
Proof.
  revert st. induction evs as [|ev evs IH]; intros st; [simpl; lia|].
  change (VolumeBoot.loop (ev :: evs) st)
    with (VolumeBoot.loop evs (VolumeBoot.loopStep st ev)).
  destruct (IH (VolumeBoot.loopStep st ev)) as (IHp & IHs).
  cbn [volumeProduced]. rewrite length_app.
  destruct ev as [raw|delivered]; unfold messages, ticks in *; cbn [List.filter length].
  - pose proof (volume_emitted_at_most_one raw st).
    cbn [VolumeBoot.loopStep] in *. rewrite volume_onMessage_sent in IHs. lia.
  - pose proof (drainTick_sent_length delivered (Volume.out st)).
    cbn [VolumeBoot.loopStep Volume.withOut Volume.out] in *. simpl. lia.
Qed.

(** X15. The backlog: a message callback enqueues at most one alert
    and a timer tick takes at most one off, so after any run the queue
    is no longer than it was plus the number of messages, and no
    shorter than it was plus what the messages produced minus the
    number of ticks: alerts produced faster than one per tick pile up.
    Both bots. *)
Theorem backlog_bounds (evs : list RsiBoot.LoopEvent)
    (st : Rsi.State) (vst : Volume.State) :
  (length (rsiProduced evs st) ≤ messages evs
   ∧ length (alertQueue (Rsi.out (RsiBoot.loop evs st)))
     ≤ length (alertQueue (Rsi.out st)) + messages evs
   ∧ length (alertQueue (Rsi.out st)) + length (rsiProduced evs st)
     ≤ length (alertQueue (Rsi.out (RsiBoot.loop evs st))) + ticks evs)
  ∧ (length (volumeProduced evs vst) ≤ messages evs
     ∧ length (alertQueue (Volume.out (VolumeBoot.loop evs vst)))
       ≤ length (alertQueue (Volume.out vst)) + messages evs
     ∧ length (alertQueue (Volume.out vst)) + length (volumeProduced evs vst)
       ≤ length (alertQueue (Volume.out (VolumeBoot.loop evs vst))) + ticks evs).
Proof.
  split.
  - destruct (rsi_loop_counts evs st) as (Hp & Hs).
    pose proof (f_equal length (rsi_loop_conserves evs st)) as Hc.
    rewrite !length_app, !length_fmap, length_app in Hc. lia.
  - destruct (volume_loop_counts evs vst) as (Hp & Hs).
    pose proof (f_equal length (volume_loop_conserves evs vst)) as Hc.
    rewrite !length_app, !length_fmap, length_app in Hc. lia.
Qed.

End Backlog.

(* ===================================================================== *)
(** ** Names and URLs                                                     *)
(* ===================================================================== *)

Import Text TextProps.

Lemma dropChars_app (p s : string) : dropChars (String.length p) (p +:+ s) = s.
Proof. induction p as [|c p IH]; simpl; [by destruct s|done]. Qed.

Lemma prefix_usdt_short (c : ascii) (x rest : string) :
  String.prefix "USDT" (String c x) = false →
  String.prefix "USDT" (String c (x +:+ "USDT" +:+ rest)) = false.
Proof.
  intros Hp.
  destruct x as [|d [|e [|f x]]].
  - change (String.prefix "USDT" (String c (String "U" (String "S" (String "D"
              (String "T" rest))))) = false).
    cbn [String.prefix]. destruct (ascii_dec "U" c); [|done]. reflexivity.
  - change (String.prefix "USDT" (String c (String d (String "U" (String "S"
              (String "D" (String "T" rest)))))) = false).
    cbn [String.prefix]. destruct (ascii_dec "U" c); [|done].
    destruct (ascii_dec "S" d); [|done]. reflexivity.
  - change (String.prefix "USDT" (String c (String d (String e (String "U"
              (String "S" (String "D" (String "T" rest))))))) = false).
    cbn [String.prefix]. destruct (ascii_dec "U" c); [|done].
    destruct (ascii_dec "S" d); [|done]. destruct (ascii_dec "D" e); [|done].
    reflexivity.
  - change (String.prefix "USDT" (String c (String d (String e (String f
              (x +:+ "USDT" +:+ rest))))) = false).
    cbn [String.prefix] in *.
    assert (∀ s, String.prefix EmptyString s = true) as Hnil by (by intros [|]).
    rewrite Hnil in *. exact Hp.
Qed.

Lemma removeFirst_usdt (x rest : string) :
  occursIn "USDT" x = false →
  removeFirst "USDT" (x +:+ "USDT" +:+ rest) = x +:+ rest.
Proof.
  induction x as [|c x IH]; intros Ho.
  - by destruct rest.
  - cbn [occursIn] in Ho. apply orb_false_iff in Ho as [Hp Ho].
    change (String c x +:+ "USDT" +:+ rest) with (String c (x +:+ "USDT" +:+ rest)).
    cbn [removeFirst]. rewrite (prefix_usdt_short c x rest Hp).
    by rewrite IH.
Qed.

Lemma append_nil_r (s : string) : s +:+ EmptyString = s.
Proof. induction s as [|c s IH]; [done|]. change (String c (s +:+ EmptyString) = String c s). by rewrite IH. Qed.

Lemma hasChar_app c a b : hasChar c (a +:+ b) = hasChar c a || hasChar c b.
Proof.
  induction a as [|d a IH]; [done|].
  change (hasChar c (String d (a +:+ b)) = hasChar c (String d a) || hasChar c b).
  cbn [hasChar]. rewrite IH. by rewrite orb_assoc.
Qed.

Lemma splitOn_app sep (a b : string) :
  hasChar sep a = false →
  splitOn sep (a +:+ String sep b) = a :: splitOn sep b.
Proof.
  induction a as [|d a IH]; intros Hc.
  - change (splitOn sep (String sep b) = EmptyString :: splitOn sep b).
    cbn [splitOn]. by rewrite Ascii.eqb_refl.
  - cbn [hasChar] in Hc. apply orb_false_iff in Hc as [Hd Hc].
    change (splitOn sep (String d (a +:+ String sep b)) = String d a :: splitOn sep b).
    cbn [splitOn]. rewrite Hd, IH by done. done.
Qed.

Lemma splitOn_whole sep (a : string) :
  hasChar sep a = false → splitOn sep a = [a].
Proof.
  induction a as [|d a IH]; intros Hc; [done|].
  cbn [hasChar] in Hc. apply orb_false_iff in Hc as [Hd Hc].
  cbn [splitOn]. rewrite Hd, IH by done. done.
Qed.

Lemma splitOn_join sep (parts : list string) :
  parts ≠ [] → Forall (fun p => hasChar sep p = false) parts →
  splitOn sep (join (String sep EmptyString) parts) = parts.
Proof.
  intros Hne Hall. induction Hall as [|p parts Hp Hall IH]; [done|].
  destruct parts as [|q parts].
  - cbn [join]. by apply splitOn_whole.
  - change (join (String sep EmptyString) (p :: q :: parts))
      with (p +:+ String sep (join (String sep EmptyString) (q :: parts))).
    rewrite splitOn_app by done. by rewrite IH.
Qed.

Lemma append_cons (c : ascii) (s t : string) : String c s +:+ t = String c (s +:+ t).
Proof. done. Qed.

Lemma length_append (s t : string) :
  String.length (s +:+ t) = String.length s + String.length t.
Proof. induction s as [|c s IH]; [done|]. rewrite append_cons. simpl. by rewrite IH. Qed.

Lemma dropLast_app (s suffix : string) :
  dropLast (String.length suffix) (s +:+ suffix) = s.
Proof.
  unfold dropLast. rewrite length_append.
  replace (String.length s + String.length suffix - String.length suffix)
    with (String.length s) by lia.
  induction s as [|c s IH].
  - by destruct suffix.
  - rewrite append_cons. simpl. by rewrite IH.
Qed.

Lemma streamsOf_build (suffix : string) (symbols : list string) :
  hasChar "/" suffix = false →
  symbols ≠ [] → Forall (fun s => hasChar "/" s = false) symbols →
  streamsOf suffix
    ("wss://stream.binance.com:9443/stream?streams="
       +:+ join "/" ((fun s => s +:+ suffix) <$> symbols)) = symbols.
Proof.
  intros Hsuf Hne Hall. unfold streamsOf. rewrite dropChars_app.
  rewrite splitOn_join.
  - rewrite <- list_fmap_compose. rewrite <- (list_fmap_id symbols) at 2.
    apply list_fmap_ext. intros i s _. simpl. apply dropLast_app.
  - by destruct symbols.
  - apply Forall_fmap. eapply Forall_impl; [exact Hall|].
    intros s Hs. simpl. by rewrite hasChar_app, Hs, Hsuf.
Qed.

Lemma removeFirst_usdt_suffix (base : string) :
  occursIn "USDT" base = false → removeFirst "USDT" (base +:+ "USDT") = base.
Proof.
  intros Ho. rewrite <- (append_nil_r base) at 2.
  by rewrite <- (removeFirst_usdt base EmptyString Ho).
Qed.

(** X7. The base name of an alert: for a symbol made of a base and the
    quote [USDT], the base holding no [USDT] of its own,
    [replace("USDT", "")] leaves the base. It removes the first
    occurrence, not the suffix: whatever follows that occurrence
    stays. Used for the tag of both alerts and by the stablecoin
    filter. *)
Theorem base_name_strips_quote (base rest : string) :
  occursIn "USDT" base = false →
  removeFirst "USDT" (base +:+ "USDT") = base
  ∧ removeFirst "USDT" (base +:+ "USDT" +:+ rest) = base +:+ rest.
Proof.
  intros Ho. split; [by apply removeFirst_usdt_suffix|by apply removeFirst_usdt].
Qed.

(** X8. The combined-stream URL can be read back: for a list of
    symbols, not empty and free of slashes, cutting the URL of either
    bot after its fixed head at the slashes and dropping the interval
    suffix gives the symbols back, in order. The URL names one stream
    per symbol and nothing else. *)
Theorem stream_url_round_trip (symbols : list string) :
  symbols ≠ [] →
  Forall (fun s => hasChar "/" s = false) symbols →
  streamsOf "@kline_1m" (RsiBoot.buildCombinedStreamUrl symbols) = symbols
  ∧ streamsOf "@kline_15m" (VolumeBoot.buildCombinedStreamUrl symbols) = symbols.
Proof.
  intros Hne Hall. split.
  - by apply streamsOf_build.
  - unfold VolumeBoot.buildCombinedStreamUrl. cbv zeta.
    change (fun s => s +:+ "@kline_" +:+ VolumeBoot.interval)
      with (fun s : string => s +:+ "@kline_15m").
    by apply streamsOf_build.
Qed.

(** *** The symbol universe *)

Lemma includes_spec (x : string) (l : list string) : includes x l = true ↔ x ∈ l.
Proof.
  unfold includes. rewrite existsb_exists. split.
  - intros (y & Hy & Heq). apply String.eqb_eq in Heq as ->. by apply list_elem_of_In.
  - intros Hx. exists x. split; [by apply list_elem_of_In|apply String.eqb_refl].
Qed.

Lemma take_dropChars (n : nat) (s : string) :
  String.substring 0 n s +:+ dropChars n s = s.
Proof.
  revert s. induction n as [|n IH]; intros [|c s]; try done.
  simpl. rewrite append_cons. by rewrite IH.
Qed.

Lemma endsWith_split (suffix s : string) :
  endsWith suffix s = true → ∃ x, s = x +:+ suffix.
Proof.
  unfold endsWith. intros Hs. apply andb_true_iff in Hs as [_ Hs].
  apply String.eqb_eq in Hs.
  exists (String.substring 0 (String.length s - String.length suffix) s).
  set (n := String.length s - String.length suffix) in *.
  rewrite <- Hs. by rewrite take_dropChars.
Qed.

Lemma endsWith_app (suffix x : string) : endsWith suffix (x +:+ suffix) = true.
Proof.
  unfold endsWith. rewrite length_append. apply andb_true_iff. split.
  - apply Nat.leb_le. lia.
  - replace (String.length x + String.length suffix - String.length suffix)
      with (String.length x) by lia.
    rewrite dropChars_app. apply String.eqb_refl.
Qed.

Lemma stablecoin_has_no_quote (stable : string) :
  stable ∈ Universe.stablecoins → occursIn "USDT" stable = false.
Proof.
  unfold Universe.stablecoins. rewrite !elem_of_cons, elem_of_nil.
  intros [->|[->|[->|[->|[->|[->|[->|[->|[]]]]]]]]]; reflexivity.
Qed.

Lemma notStable_spec (t : Universe.Ticker24h) (base : string) :
  Universe.symbol t = base +:+ "USDT" →
  (occursIn "USDT" base = false ∨ base ∈ Universe.stablecoins) →
  Universe.notStable t = true ↔ base ∉ Universe.stablecoins.
Proof.
  intros Hsym Hfree. unfold Universe.notStable. cbv zeta. rewrite Hsym.
  assert (occursIn "USDT" base = false) as Ho.
  { destruct Hfree as [|Hin]; [done|by apply stablecoin_has_no_quote]. }
  rewrite (removeFirst_usdt_suffix base Ho).
  rewrite negb_true_iff. rewrite <- includes_spec.
  by destruct (includes base Universe.stablecoins).
Qed.

Lemma eligible_spec (t : Universe.Ticker24h) (data : list Universe.Ticker24h) :
  t ∈ eligible data
  ↔ t ∈ data ∧ Universe.quotedInUSDT t = true ∧ Universe.notStable t = true.
Proof.
  unfold eligible. rewrite !list_elem_of_In, !filter_In. tauto.
Qed.

Section TopSymbols.
Context `{Runtime}.
Variable sort : (Universe.Ticker24h → Universe.Ticker24h → float)
                → list Universe.Ticker24h → list Universe.Ticker24h.
Hypothesis sort_permutes : ∀ cmp l, sort cmp l ≡ₚ l.

(** X9. What [getTopSymbols] returns, whatever order the engine's sort
    settles on: at most [limit] symbols, as many as there are eligible
    tickers if that is fewer; each is the lower-cased symbol of a ticker
    of the response named base + [USDT] whose base is not one of the
    eight stablecoins; a ticker so named, its base free of [USDT] and
    not a stablecoin, is eligible; and when the eligible tickers fit in
    [limit] none of them is left out. *)
Theorem top_symbols_selected (limit : nat) (data : list Universe.Ticker24h) :
  let result := Universe.getTopSymbols sort limit data in
  length result = Nat.min limit (length (eligible data))
  ∧ (∀ s, s ∈ result →
       ∃ t base, (t ∈ data) ∧ (Universe.symbol t = base +:+ "USDT")
                 ∧ (base ∉ Universe.stablecoins)
                 ∧ (s = toLowerCase (Universe.symbol t)))
  ∧ (∀ t base, t ∈ data → Universe.symbol t = base +:+ "USDT" →
       occursIn "USDT" base = false → base ∉ Universe.stablecoins →
       t ∈ eligible data)
  ∧ (length (eligible data) ≤ limit →
     result ≡ₚ (fun t => toLowerCase (Universe.symbol t)) <$> eligible data).
Proof using sort_permutes.
  intros result. subst result. unfold Universe.getTopSymbols.
  fold (eligible data). split_and!.
  - rewrite length_fmap, length_take. by rewrite (Permutation_length (sort_permutes _ _)).
  - intros s Hs. apply list_elem_of_fmap in Hs as (t & -> & Ht).
    apply elem_of_take in Ht as (i & Ht & _).
    apply list_elem_of_lookup_2 in Ht. rewrite sort_permutes in Ht.
    apply eligible_spec in Ht as (Hin & Hq & Hn).
    destruct (endsWith_split _ _ Hq) as [base Hbase].
    exists t, base. split_and!; [done|done| |done].
    intros Hstable.
    apply (notStable_spec t base Hbase) in Hn; [done|by right].
  - intros t base Hin Hsym Ho Hstable. apply eligible_spec. split_and!; [done| |].
    + unfold Universe.quotedInUSDT. rewrite Hsym. apply endsWith_app.
    + apply (notStable_spec t base Hsym); [by left|done].
  - intros Hfit. rewrite take_ge.
    + by rewrite sort_permutes.
    + by rewrite (Permutation_length (sort_permutes _ _)).
Qed.

End TopSymbols.

(* ===================================================================== *)
(** ** Start-up                                                           *)
(* ===================================================================== *)

Import Batching.

(** *** The batches of the backfill *)

Section Batches.
Context {A : Type}.
Implicit Types (l : list A) (fuel i : nat).

Lemma batchLoop_concat fuel i l :
  length l ≤ fuel + i → concat (batchLoop fuel i l) = drop i l.
Proof.
  revert i. induction fuel as [|fuel IH]; intros i Hfuel.
  - simpl. by rewrite drop_ge by lia.
  - cbn [batchLoop]. destruct (Nat.ltb_spec i (length l)) as [Hlt|Hge].
    + cbn [concat]. rewrite IH by (unfold batchSize; lia).
      unfold slice. replace (i + batchSize - i) with batchSize by lia.
      rewrite <- drop_drop. apply take_drop.
    + simpl. by rewrite drop_ge by lia.
Qed.

Lemma batchLoop_sizes fuel i l :
  Forall (fun batch => 0 < length batch ≤ batchSize) (batchLoop fuel i l).
Proof.
  revert i. induction fuel as [|fuel IH]; intros i; [constructor|].
  cbn [batchLoop]. destruct (Nat.ltb_spec i (length l)) as [Hlt|Hge]; [|constructor].
  constructor; [|apply IH].
  unfold slice. rewrite length_take, length_drop. unfold batchSize. lia.
Qed.

Lemma batchLoop_count fuel i l :
  length l ≤ fuel + i →
  length (batchLoop fuel i l) = (length l - i + (batchSize - 1)) / batchSize.
Proof.
  revert i. induction fuel as [|fuel IH]; intros i Hfuel.
  - simpl. replace (length l - i) with 0 by lia. done.
  - cbn [batchLoop]. destruct (Nat.ltb_spec i (length l)) as [Hlt|Hge].
    + cbn [length]. rewrite IH by (unfold batchSize; lia). unfold batchSize.
      destruct (decide (length l - i ≤ 20)) as [Hsmall|Hbig].
      * replace (length l - (i + 20)) with 0 by lia.
        change ((0 + (20 - 1)) / 20) with 0.
        apply (Nat.div_unique _ 20 1 (length l - i - 1)); lia.
      * replace (length l - i + (20 - 1)) with (length l - (i + 20) + (20 - 1) + 1 * 20) by lia.
        rewrite Nat.div_add by lia. lia.
    + simpl. replace (length l - i) with 0 by lia. done.
Qed.

End Batches.


(** *** Seeding the windows *)

Section Seeding.
Implicit Types (backfill : string → option (list float))
  (windows : gmap string (list float)) (symbols : list string).

Lemma seed_commute backfill windows a b :
  seed backfill (seed backfill windows a) b = seed backfill (seed backfill windows b) a.
Proof.
  unfold seed. destruct (backfill a) as [wa|] eqn:Ha, (backfill b) as [wb|] eqn:Hb;
    try done.
  destruct (decide (a = b)) as [->|Hne]; [congruence|].
  by apply insert_insert_ne.
Qed.

Lemma seed_fold_permutation backfill symbols symbols' windows :
  symbols ≡ₚ symbols' →
  fold_left (seed backfill) symbols windows
  = fold_left (seed backfill) symbols' windows.
Proof.
  intros Hperm. revert windows.
  induction Hperm as [|a l l' _ IH|a b l|l l' l'' _ IH1 _ IH2]; intros windows.
  - done.
  - simpl. apply IH.
  - simpl. by rewrite seed_commute.
  - by rewrite IH1.
Qed.

Lemma seed_fold_lookup backfill symbols windows symbol :
  fold_left (seed backfill) symbols windows !! symbol
  = match (if bool_decide (symbol ∈ symbols) then backfill symbol else None) with
    | Some w => Some w
    | None => windows !! symbol
    end.
Proof.
  revert windows. induction symbols as [|a symbols IH]; intros windows.
  - done.
  - simpl. rewrite IH.
    assert (seed backfill windows a !! symbol
            = match (if bool_decide (symbol = a) then backfill symbol else None) with
              | Some w => Some w
              | None => windows !! symbol
              end) as ->.
    { unfold seed. destruct (decide (symbol = a)) as [<-|E].
      - rewrite bool_decide_eq_true_2 by done.
        destruct (backfill symbol); by rewrite ?lookup_insert_eq.
      - rewrite bool_decide_eq_false_2 by done.
        destruct (backfill a); by rewrite ?lookup_insert_ne. }
    destruct (decide (symbol = a)) as [Ha|Ha], (decide (symbol ∈ symbols)) as [Hin|Hin].
    all: rewrite ?(bool_decide_eq_true_2 _ Ha), ?(bool_decide_eq_false_2 _ Ha),
           ?(bool_decide_eq_true_2 _ Hin), ?(bool_decide_eq_false_2 _ Hin).
    + rewrite bool_decide_eq_true_2 by (rewrite elem_of_cons; tauto).
      by destruct (backfill symbol).
    + rewrite bool_decide_eq_true_2 by (rewrite elem_of_cons; tauto). done.
    + rewrite bool_decide_eq_true_2 by (rewrite elem_of_cons; tauto). done.
    + rewrite bool_decide_eq_false_2 by (rewrite elem_of_cons; tauto). done.
Qed.

Lemma seed_fold_bounded cap backfill symbols windows :
  (∀ s w, backfill s = Some w → length w ≤ cap) →
  bounded cap windows → bounded cap (fold_left (seed backfill) symbols windows).
Proof.
  intros Hfill Hb symbol w. rewrite seed_fold_lookup.
  destruct (if bool_decide _ then _ else _) as [w'|] eqn:E.
  - intros [= <-]. case_bool_decide; [by eapply Hfill|done].
  - apply Hb.
Qed.

End Seeding.

Section Backfill.
Context `{Runtime}.

Lemma mapM_length {A B : Type} (f : A → Completion B) (l : list A) (k : list B) :
  mapM f l = inr k → length k = length l.
Proof.
  revert k. induction l as [|x l IH]; intros k; simpl.
  - by intros [= <-].
  - destruct (f x) as [e|y]; simpl; [done|].
    destruct (mapM f l) as [e|k']; simpl; [done|].
    intros [= <-]. simpl. by rewrite (IH k').
Qed.

Lemma rsiBackfill_length response w :
  rsiBackfill response = Some w →
  ∃ rows, response = Some rows ∧ length w = length rows.
Proof.
  unfold rsiBackfill. destruct response as [rows|]; [|done].
  destruct (RsiBoot.closesOf rows) as [e|closes] eqn:E; [done|].
  intros [= <-]. exists rows. split; [done|by eapply mapM_length].
Qed.

Lemma volumeBackfill_length response w :
  volumeBackfill response = Some w →
  ∃ rows, response = Some rows ∧ length w = length rows.
Proof.
  unfold volumeBackfill. destruct response as [rows|]; [|done].
  destruct (VolumeBoot.volumesOf rows) as [e|volumes] eqn:E; [done|].
  intros [= <-]. exists rows. split; [done|by eapply mapM_length].
Qed.

Lemma rsiSameRest_refl b : rsiSameRest b b.
Proof. by repeat split. Qed.

Lemma rsiSameRest_trans b1 b2 b3 :
  rsiSameRest b1 b2 → rsiSameRest b2 b3 → rsiSameRest b1 b3.
Proof. unfold rsiSameRest. intros (?&?&?&?) (?&?&?&?). split_and!; congruence. Qed.

Lemma volumeSameRest_refl b : volumeSameRest b b.
Proof. by repeat split. Qed.

Lemma volumeSameRest_trans b1 b2 b3 :
  volumeSameRest b1 b2 → volumeSameRest b2 b3 → volumeSameRest b1 b3.
Proof. unfold volumeSameRest. intros (?&?&?) (?&?&?). split_and!; congruence. Qed.

(** **** Momentum bot *)

Lemma rsi_preloadCloses_spec symbol (responses : string → RsiBoot.Klines) b :
  let b' := RsiBoot.preloadCloses symbol (responses symbol) b in
  Rsi.closePrices (RsiBoot.state b')
  = seed (fun s => rsiBackfill (responses s)) (Rsi.closePrices (RsiBoot.state b)) symbol
  ∧ RsiBoot.pauses b' = RsiBoot.pauses b
  ∧ rsiSameRest b b'.
Proof.
  unfold RsiBoot.preloadCloses, seed, rsiBackfill. cbv zeta.
  destruct (responses symbol) as [rows|]; [|by repeat split].
  destruct (RsiBoot.closesOf rows); by repeat split.
Qed.

Lemma rsi_preloadBatch_spec (responses : string → RsiBoot.Klines) batch b :
  let b' := RsiBoot.preloadBatch responses batch b in
  Rsi.closePrices (RsiBoot.state b')
  = fold_left (seed (fun s => rsiBackfill (responses s))) batch
      (Rsi.closePrices (RsiBoot.state b))
  ∧ RsiBoot.pauses b' = RsiBoot.pauses b
  ∧ rsiSameRest b b'.
Proof.
  revert b. induction batch as [|symbol batch IH]; intros b.
  - by repeat split.
  - destruct (rsi_preloadCloses_spec symbol responses b) as (Hw & Hp & Hr).
    destruct (IH (RsiBoot.preloadCloses symbol (responses symbol) b)) as (IHw & IHp & IHr).
    cbn zeta in *. unfold RsiBoot.preloadBatch in *. cbn [fold_left].
    rewrite IHw, IHp, Hw, Hp. split_and!; [done|done|].
    by eapply rsiSameRest_trans.
Qed.

Lemma rsi_batches_spec (responses : string → RsiBoot.Klines)
    (bs : list (list string)) b :
  let b' := fold_left (fun b batch => RsiBoot.sleep (RsiBoot.preloadBatch responses batch b))
              bs b in
  Rsi.closePrices (RsiBoot.state b')
  = fold_left (seed (fun s => rsiBackfill (responses s))) (concat bs)
      (Rsi.closePrices (RsiBoot.state b))
  ∧ RsiBoot.pauses b' = RsiBoot.pauses b + length bs
  ∧ rsiSameRest b b'.
Proof.
  revert b. induction bs as [|batch bs IH]; intros b.
  - cbn. split_and!; [done|lia|apply rsiSameRest_refl].
  - destruct (rsi_preloadBatch_spec responses batch b) as (Hw & Hp & Hr).
    destruct (IH (RsiBoot.sleep (RsiBoot.preloadBatch responses batch b)))
      as (IHw & IHp & IHr).
    cbn zeta in *. cbn [fold_left concat]. rewrite fold_left_app.
    rewrite IHw, IHp. cbn [RsiBoot.sleep RsiBoot.state RsiBoot.pauses].
    rewrite Hw, Hp. split_and!; [done|simpl; lia|].
    eapply rsiSameRest_trans; [exact Hr|exact IHr].
Qed.

Lemma batches_concat {A : Type} (l : list A) : concat (batches l) = l.
Proof. unfold batches. rewrite batchLoop_concat by lia. apply drop_0. Qed.

Lemma batches_count {A : Type} (l : list A) :
  length (batches l) = batchCount (length l).
Proof.
  unfold batches, batchCount. rewrite batchLoop_count by lia.
  unfold batchSize. by rewrite Nat.sub_0_r.
Qed.

Lemma rsi_preloadAll_spec symbols (responses : string → RsiBoot.Klines) b :
  let b' := RsiBoot.preloadAll symbols responses b in
  Rsi.closePrices (RsiBoot.state b')
  = fold_left (seed (fun s => rsiBackfill (responses s))) symbols
      (Rsi.closePrices (RsiBoot.state b))
  ∧ RsiBoot.pauses b' = RsiBoot.pauses b + batchCount (length symbols)
  ∧ rsiSameRest b b'.
Proof.
  unfold RsiBoot.preloadAll. cbv zeta.
  set (b0 := RsiBoot.withState _ b).
  destruct (rsi_batches_spec responses (batches symbols) b0) as (Hw & Hp & Hr).
  cbn zeta in *. rewrite batches_concat in Hw. rewrite batches_count in Hp.
  split_and!; [exact Hw|exact Hp|].
  destruct Hr as (?&?&?&?). by repeat split.
Qed.

(** **** Volume bot *)

Lemma volume_preloadVolumes_spec symbol (responses : string → VolumeBoot.Klines) b :
  let b' := VolumeBoot.preloadVolumes symbol (responses symbol) b in
  Volume.volumeHistory (VolumeBoot.state b')
  = seed (fun s => volumeBackfill (responses s))
      (Volume.volumeHistory (VolumeBoot.state b)) symbol
  ∧ VolumeBoot.pauses b' = VolumeBoot.pauses b
  ∧ volumeSameRest b b'.
Proof.
  unfold VolumeBoot.preloadVolumes, seed, volumeBackfill. cbv zeta.
  destruct (responses symbol) as [rows|]; [|by repeat split].
  destruct (VolumeBoot.volumesOf rows); by repeat split.
Qed.

Lemma volume_preloadBatch_spec (responses : string → VolumeBoot.Klines) batch b :
  let b' := VolumeBoot.preloadBatch responses batch b in
  Volume.volumeHistory (VolumeBoot.state b')
  = fold_left (seed (fun s => volumeBackfill (responses s))) batch
      (Volume.volumeHistory (VolumeBoot.state b))
  ∧ VolumeBoot.pauses b' = VolumeBoot.pauses b
  ∧ volumeSameRest b b'.
Proof.
  revert b. induction batch as [|symbol batch IH]; intros b.
  - by repeat split.
  - destruct (volume_preloadVolumes_spec symbol responses b) as (Hw & Hp & Hr).
    destruct (IH (VolumeBoot.preloadVolumes symbol (responses symbol) b))
      as (IHw & IHp & IHr).
    cbn zeta in *. unfold VolumeBoot.preloadBatch in *. cbn [fold_left].
    rewrite IHw, IHp, Hw, Hp. split_and!; [done|done|].
    by eapply volumeSameRest_trans.
Qed.

Lemma volume_preloadAll_spec symbols (responses : string → VolumeBoot.Klines) b :
  let b' := VolumeBoot.preloadAll symbols responses b in
  Volume.volumeHistory (VolumeBoot.state b')
  = fold_left (seed (fun s => volumeBackfill (responses s))) symbols
      (Volume.volumeHistory (VolumeBoot.state b))
  ∧ VolumeBoot.pauses b' = VolumeBoot.pauses b + batchCount (length symbols)
  ∧ volumeSameRest b b'.
Proof.
  unfold VolumeBoot.preloadAll.
  rewrite <- (batches_concat symbols) at 2. rewrite <- batches_count.
  generalize (batches symbols) as bs. intros bs. revert b.
  induction bs as [|batch bs IH]; intros b.
  - cbn. split_and!; [done|lia|apply volumeSameRest_refl].
  - destruct (volume_preloadBatch_spec responses batch b) as (Hw & Hp & Hr).
    destruct (IH (VolumeBoot.sleep (VolumeBoot.preloadBatch responses batch b)))
      as (IHw & IHp & IHr).
    cbn zeta in *. cbn [fold_left concat]. rewrite fold_left_app.
    rewrite IHw, IHp. cbn [VolumeBoot.sleep VolumeBoot.state VolumeBoot.pauses].
    rewrite Hw, Hp. split_and!; [done|simpl; lia|].
    eapply volumeSameRest_trans; [exact Hr|exact IHr].
Qed.

(** X10. The order in which the requests of a batch complete does not
    matter to the windows: under [Promise.all] the preloads of a batch
    finish in any order, and every order leaves the same windows, in
    both bots. *)
Theorem backfill_order_irrelevant
    (responses : string → option (list (list jsval)))
    (batch batch' : list string) (b : RsiBoot.Boot) (vb : VolumeBoot.Boot) :
  batch ≡ₚ batch' →
  Rsi.closePrices (RsiBoot.state (RsiBoot.preloadBatch responses batch b))
  = Rsi.closePrices (RsiBoot.state (RsiBoot.preloadBatch responses batch' b))
  ∧ Volume.volumeHistory (VolumeBoot.state (VolumeBoot.preloadBatch responses batch vb))
    = Volume.volumeHistory
        (VolumeBoot.state (VolumeBoot.preloadBatch responses batch' vb)).
Proof.
  intros Hperm. split.
  - destruct (rsi_preloadBatch_spec responses batch b) as (-> & _).
    destruct (rsi_preloadBatch_spec responses batch' b) as (-> & _).
    by apply seed_fold_permutation.
  - destruct (volume_preloadBatch_spec responses batch vb) as (-> & _).
    destruct (volume_preloadBatch_spec responses batch' vb) as (-> & _).
    by apply seed_fold_permutation.
Qed.

(** X11. What the backfill leaves: after [preloadAll], the window of a
    symbol is what its response yields if the symbol was asked for and
    the request and every parse went through, with one sample per row;
    otherwise it is what it was: a failed request or one row that does
    not parse leaves the window of that symbol untouched, and only that
    one. One pause is taken per batch of twenty. Alert states, queue,
    sends and stream are as before. Both bots. *)
Theorem backfill_seeds_windows (symbols : list string)
    (responses : string → option (list (list jsval))) (symbol : string)
    (b : RsiBoot.Boot) (vb : VolumeBoot.Boot) :
  let b' := RsiBoot.preloadAll symbols responses b in
  let vb' := VolumeBoot.preloadAll symbols responses vb in
  (Rsi.closePrices (RsiBoot.state b') !! symbol
   = match (if bool_decide (symbol ∈ symbols)
            then rsiBackfill (responses symbol) else None) with
     | Some w => Some w
     | None => Rsi.closePrices (RsiBoot.state b) !! symbol
     end
   ∧ RsiBoot.pauses b' = RsiBoot.pauses b + batchCount (length symbols)
   ∧ rsiSameRest b b')
  ∧ (Volume.volumeHistory (VolumeBoot.state vb') !! symbol
     = match (if bool_decide (symbol ∈ symbols)
              then volumeBackfill (responses symbol) else None) with
       | Some w => Some w
       | None => Volume.volumeHistory (VolumeBoot.state vb) !! symbol
       end
     ∧ VolumeBoot.pauses vb' = VolumeBoot.pauses vb + batchCount (length symbols)
     ∧ volumeSameRest vb vb')
  ∧ (∀ w, rsiBackfill (responses symbol) = Some w
          ∨ volumeBackfill (responses symbol) = Some w →
       ∃ rows, responses symbol = Some rows ∧ length w = length rows).
Proof.
  intros b' vb'. split_and!.
  - destruct (rsi_preloadAll_spec symbols responses b) as (Hw & _).
    subst b'. rewrite Hw. apply seed_fold_lookup.
  - by destruct (rsi_preloadAll_spec symbols responses b) as (_ & Hp & _).
  - by destruct (rsi_preloadAll_spec symbols responses b) as (_ & _ & Hr).
  - destruct (volume_preloadAll_spec symbols responses vb) as (Hw & _).
    subst vb'. rewrite Hw. apply seed_fold_lookup.
  - by destruct (volume_preloadAll_spec symbols responses vb) as (_ & Hp & _).
  - by destruct (volume_preloadAll_spec symbols responses vb) as (_ & _ & Hr).
  - intros w [Hw|Hw]; [by apply rsiBackfill_length|by apply volumeBackfill_length].
Qed.

End Backfill.

(** X12. The batches of the backfill: the loop cuts the symbols into
    consecutive batches that put together give the symbols back, each
    batch holding between one and twenty symbols, [(n + 19) / 20]
    batches for [n] symbols; no symbol is skipped and none is asked for
    twice. *)
Theorem batches_partition {A : Type} (symbols : list A) :
  concat (batches symbols) = symbols
  ∧ Forall (fun batch => 0 < length batch ≤ 20) (batches symbols)
  ∧ length (batches symbols) = batchCount (length symbols).
Proof.
  split_and!.
  - apply batches_concat.
  - apply batchLoop_sizes.
  - apply batches_count.
Qed.

(** *** From start-up to the event loop *)

Section Boot.
Context `{Runtime}.
Variable sort : (Universe.Ticker24h → Universe.Ticker24h → float)
                → list Universe.Ticker24h → list Universe.Ticker24h.
Implicit Types (tickers : Completion (list Universe.Ticker24h))
  (responses : string → option (list (list jsval))) (adminDelivered : bool).

Lemma rsi_main_windows tickers responses adminDelivered b :
  Rsi.closePrices (RsiBoot.state (RsiBoot.main sort tickers responses adminDelivered b))
  = match tickers with
    | inl _ => Rsi.closePrices (RsiBoot.state b)
    | inr data =>
        fold_left (seed (fun s => rsiBackfill (responses s)))
          (Universe.getTopSymbols sort RsiBoot.numberCoins data)
          (Rsi.closePrices (RsiBoot.state b))
    end.
Proof.
  unfold RsiBoot.main. cbv zeta. destruct tickers as [err|data]; [done|].
  destruct (rsi_preloadAll_spec
              (Universe.getTopSymbols sort RsiBoot.numberCoins data) responses b)
    as (Hw & _).
  cbn zeta in Hw. rewrite <- Hw. by destruct adminDelivered.
Qed.

Lemma volume_main_windows tickers responses adminDelivered b :
  Volume.volumeHistory
    (VolumeBoot.state (VolumeBoot.main sort tickers responses adminDelivered b))
  = match tickers with
    | inl _ => Volume.volumeHistory (VolumeBoot.state b)
    | inr data =>
        fold_left (seed (fun s => volumeBackfill (responses s)))
          (Universe.getTopSymbols sort VolumeBoot.numberCoins data)
          (Volume.volumeHistory (VolumeBoot.state b))
    end.
Proof.
  unfold VolumeBoot.main. cbv zeta. destruct tickers as [err|data]; [done|].
  destruct (volume_preloadAll_spec
              (Universe.getTopSymbols sort VolumeBoot.numberCoins data) responses b)
    as (Hw & _).
  cbn zeta in Hw. rewrite <- Hw. by destruct adminDelivered.
Qed.

Lemma rsi_loop_bounded evs (st : Rsi.State) :
  bounded 100 (Rsi.closePrices st) →
  bounded 100 (Rsi.closePrices (RsiBoot.loop evs st)).
Proof.
  revert st. induction evs as [|ev evs IH]; intros st Hb; [done|].
  apply IH. destruct ev as [raw|delivered]; [by apply rsi_onMessage_bounded|done].
Qed.

Lemma volume_loop_bounded evs (st : Volume.State) :
  bounded 30 (Volume.volumeHistory st) →
  bounded 30 (Volume.volumeHistory (VolumeBoot.loop evs st)).
Proof.
  revert st. induction evs as [|ev evs IH]; intros st Hb; [done|].
  apply IH. destruct ev as [raw|delivered]; [by apply volume_onMessage_bounded|done].
Qed.

(** X13. The stream is opened exactly when the ticker request succeeds
    and the start-up notice is delivered, and then on the URL of the
    selected symbols. When the ticker request fails nothing is
    backfilled, no pause is taken and nothing is sent; when only the
    notice fails the windows are backfilled and the notice was tried,
    but no stream is opened. Both bots. *)
Theorem stream_opens_iff tickers responses adminDelivered
    (b : RsiBoot.Boot) (vb : VolumeBoot.Boot) :
  RsiBoot.stream b = None →
  VolumeBoot.stream vb = None →
  let b' := RsiBoot.main sort tickers responses adminDelivered b in
  let vb' := VolumeBoot.main sort tickers responses adminDelivered vb in
  RsiBoot.stream b'
  = match tickers with
    | inr data =>
        if adminDelivered
        then Some (RsiBoot.buildCombinedStreamUrl
                     (Universe.getTopSymbols sort 100 data))
        else None
    | inl _ => None
    end
  ∧ VolumeBoot.stream vb'
    = match tickers with
      | inr data =>
          if adminDelivered
          then Some (VolumeBoot.buildCombinedStreamUrl
                       (Universe.getTopSymbols sort 100 data))
          else None
      | inl _ => None
      end
  ∧ (∀ err, tickers = inl err →
       Rsi.closePrices (RsiBoot.state b') = Rsi.closePrices (RsiBoot.state b)
       ∧ RsiBoot.pauses b' = RsiBoot.pauses b
       ∧ sent (Rsi.out (RsiBoot.state b')) = sent (Rsi.out (RsiBoot.state b))
       ∧ Volume.volumeHistory (VolumeBoot.state vb')
         = Volume.volumeHistory (VolumeBoot.state vb)
       ∧ VolumeBoot.pauses vb' = VolumeBoot.pauses vb
       ∧ sent (Volume.out (VolumeBoot.state vb'))
         = sent (Volume.out (VolumeBoot.state vb)))
  ∧ (∀ data, tickers = inr data →
       let symbols := Universe.getTopSymbols sort 100 data in
       Rsi.closePrices (RsiBoot.state b')
       = Rsi.closePrices (RsiBoot.state (RsiBoot.preloadAll symbols responses b))
       ∧ (∃ notice, sent (Rsi.out (RsiBoot.state b'))
                    = sent (Rsi.out (RsiBoot.state b)) ++ [notice])
       ∧ Volume.volumeHistory (VolumeBoot.state vb')
         = Volume.volumeHistory
             (VolumeBoot.state (VolumeBoot.preloadAll symbols responses vb))
       ∧ (∃ notice, sent (Volume.out (VolumeBoot.state vb'))
                    = sent (Volume.out (VolumeBoot.state vb)) ++ [notice])).
Proof.
  intros Hs Hvs b' vb'. subst b' vb'. unfold RsiBoot.main, VolumeBoot.main. cbv zeta.
  destruct tickers as [err|data].
  - split_and!; [done|done|by intros ? _|by intros ? [=]].
  - set (symbols := Universe.getTopSymbols sort 100 data).
    change (Universe.getTopSymbols sort RsiBoot.numberCoins data) with symbols.
    change (Universe.getTopSymbols sort VolumeBoot.numberCoins data) with symbols.
    destruct (rsi_preloadAll_spec symbols responses b) as (_ & _ & _ & _ & Hsent & Hstream).
    destruct (volume_preloadAll_spec symbols responses vb) as (_ & _ & _ & Hvsent & Hvstream).
    cbn zeta in *. split_and!.
    + destruct adminDelivered; [done|]. by rewrite <- Hs, <- Hstream.
    + destruct adminDelivered; [done|]. by rewrite <- Hvs, <- Hvstream.
    + by intros ? [=].
    + intros ? [= <-]. cbv zeta. fold symbols.
      destruct adminDelivered;
        (split_and!;
           [done
           |eexists; cbn [RsiBoot.withState RsiBoot.startWebSocket RsiBoot.state
                          Rsi.withOut Rsi.out RsiBoot.sendMessage consoleError sent];
            by rewrite Hsent
           |done
           |eexists; cbn [VolumeBoot.withState VolumeBoot.startWebSocket
                          VolumeBoot.state Volume.withOut Volume.out
                          RsiBoot.sendMessage consoleError sent];
            by rewrite Hvsent]).
Qed.

(** X14. The window bound from the first instruction on: whatever the
    ticker request returns and whether or not the notice gets through,
    if no kline response holds more rows than the window has room for
    (100 for the momentum bot, 30 for the volume bot), then after
    [main] from the initial state and any run of message callbacks and
    timer ticks, every stored window is within its capacity. *)
Theorem windows_bounded_from_boot tickers responses vresponses adminDelivered
    (evs : list RsiBoot.LoopEvent) :
  (∀ s rows, responses s = Some rows → length rows ≤ 100) →
  (∀ s rows, vresponses s = Some rows → length rows ≤ 30) →
  bounded 100
    (Rsi.closePrices
       (RsiBoot.loop evs
          (RsiBoot.state
             (RsiBoot.main sort tickers responses adminDelivered RsiBoot.initial))))
  ∧ bounded 30
      (Volume.volumeHistory
         (VolumeBoot.loop evs
            (VolumeBoot.state
               (VolumeBoot.main sort tickers vresponses adminDelivered
                  VolumeBoot.initial)))).
Proof.
  intros Hrows Hvrows. split.
  - apply rsi_loop_bounded. rewrite rsi_main_windows.
    assert (bounded 100 (Rsi.closePrices (RsiBoot.state RsiBoot.initial))) as Hb
      by (intros s w Hl; change ((∅ : gmap string (list float)) !! s = Some w) in Hl;
          by rewrite lookup_empty in Hl).
    destruct tickers as [err|data]; [done|].
    apply seed_fold_bounded; [|done].
    intros s w Hw. apply rsiBackfill_length in Hw as (rows & Hr & ->).
    by eapply Hrows.
  - apply volume_loop_bounded. rewrite volume_main_windows.
    assert (bounded 30 (Volume.volumeHistory (VolumeBoot.state VolumeBoot.initial)))
      as Hb
      by (intros s w Hl; change ((∅ : gmap string (list float)) !! s = Some w) in Hl;
          by rewrite lookup_empty in Hl).
    destruct tickers as [err|data]; [done|].
    apply seed_fold_bounded; [|done].
    intros s w Hw. apply volumeBackfill_length in Hw as (rows & Hr & ->).
    by eapply Hvrows.
Qed.

End Boot.

(* ===================================================================== *)
(** ** The further properties on the sample frames                        *)
(* ===================================================================== *)

Lemma insertBy_permutes {A : Type} (cmp : A → A → float) (a : A) (l : list A) :
  BootSample.insertBy cmp a l ≡ₚ a :: l.
Proof.
  induction l as [|b l IH]; [done|]. simpl.
  destruct (le (cmp a b) 0); [done|]. rewrite IH. apply perm_swap.
Qed.

Lemma sortBy_permutes {A : Type} (cmp : A → A → float) (l : list A) :
  BootSample.sortBy cmp l ≡ₚ l.
Proof.
  induction l as [|a l IH]; [done|].
  unfold BootSample.sortBy in *. simpl. by rewrite insertBy_permutes, IH.
Qed.

Lemma sample_responses_short (n : nat) (s : string) (rows : list (list jsval)) :
  2 ≤ n → BootSample.responses s = Some rows → length rows ≤ n.
Proof.
  intros Hn. unfold BootSample.responses.
  destruct (String.eqb s "btcusdt"); [|done]. intros [= <-]. simpl. lia.
Qed.

(** A close on a backfill of 102 closes, and on one of 31 volumes. *)
Lemma overfull_window_keeps_length_witness :
  Rsi.closePrices BootSample.overfull !! "btcusdt" = Some (replicate 102 50%float)
  ∧ length (default [] (Rsi.closePrices
                          (Rsi.onMessage (H:=Sample.runtime) "btc-closed"
                             BootSample.overfull) !! "btcusdt")) = 102.
Proof.
  split; [reflexivity|].
  destruct (@overfull_window_keeps_length Sample.runtime "btc-closed" "btcusdt"
              100 600 (replicate 102 50%float) (replicate 31 10000%float)
              BootSample.overfull BootSample.overfullVolume)
    as ((Hw & Hl) & _);
    [reflexivity|reflexivity|reflexivity|vm_compute; lia|reflexivity|vm_compute; lia|].
  rewrite Hw. exact Hl.
Defined.

(** Two values above 80 and two below 20, from the initial state. *)
Lemma excursion_alerts_once_witness :
  Rsi.feed (H:=Sample.runtime) "btcusdt" [90; 95]%float 100 Rsi.initial = [1; 1]
  ∧ Rsi.feed (H:=Sample.runtime) "btcusdt" [10; 5]%float 100 Rsi.initial = [1; 1].
Proof.
  destruct (@excursion_alerts_once Sample.runtime "btcusdt" [90; 95]%float
              [10; 5]%float 100 Rsi.initial) as (Hhigh & Hlow & _);
    [repeat constructor|repeat constructor|].
  split; [apply Hhigh|apply Hlow]; vm_compute; discriminate.
Defined.

(** A candle of 60,000 on a history that holds a NaN. *)
Lemma nan_silences_spike_witness :
  Exists isNaN (default [] (Volume.volumeHistory BootSample.poisoned !! "btcusdt"))
  ∧ alertQueue (Volume.out (Volume.onMessage (H:=Sample.runtime) "btc-closed"
                              BootSample.poisoned)) = [].
Proof.
  assert (Exists isNaN
            (default [] (Volume.volumeHistory BootSample.poisoned !! "btcusdt")))
    as Hnan by (apply Exists_cons_hd; reflexivity).
  split; [exact Hnan|].
  apply (@nan_silences_spike Sample.runtime "btc-closed" "btcusdt" 100 600
           BootSample.poisoned); [reflexivity|right; exact Hnan].
Defined.

(** The first fourteen closed candles of a symbol on the momentum bot,
    and the first thirty on the volume bot, other frames in between. *)
Lemma warm_up_is_silent_witness :
  length (default [] (Rsi.closePrices Rsi.initial !! "btcusdt"))
    + length (closesFor (H:=Sample.runtime) "btcusdt"
                ("eth-closed" :: replicate 14 "btc-closed")) = 14
  ∧ length (default [] (Volume.volumeHistory Volume.initial !! "btcusdt"))
    + length (volumesFor (H:=Sample.runtime) "btcusdt"
                ("eth-closed" :: replicate 30 "btc-closed")) = 30
  ∧ rsiContributions (H:=Sample.runtime) "btcusdt"
      ("eth-closed" :: replicate 14 "btc-closed") Rsi.initial = []
  ∧ volumeContributions (H:=Sample.runtime) "btcusdt"
      ("eth-closed" :: replicate 30 "btc-closed") Volume.initial = [].
Proof.
  split; [vm_compute; reflexivity|]. split; [vm_compute; reflexivity|].
  destruct (@warm_up_is_silent Sample.runtime "btcusdt"
              ("eth-closed" :: replicate 14 "btc-closed")
              ("eth-closed" :: replicate 30 "btc-closed")
              Rsi.initial Volume.initial) as (Hr & Hv).
  split; [apply Hr|apply Hv]; vm_compute; lia.
Defined.

(** The tag of BTCUSDT. *)
Lemma base_name_strips_quote_witness :
  occursIn "USDT" "BTC" = false ∧ removeFirst "USDT" "BTCUSDT" = "BTC".
Proof.
  split; [reflexivity|].
  apply (base_name_strips_quote "BTC" "X"). reflexivity.
Defined.

(** The URL of two streams. *)
Lemma stream_url_round_trip_witness :
  streamsOf "@kline_1m" (RsiBoot.buildCombinedStreamUrl ["btcusdt"; "ethusdt"])
  = ["btcusdt"; "ethusdt"].
Proof.
  apply (stream_url_round_trip ["btcusdt"; "ethusdt"]);
    [discriminate|repeat constructor].
Defined.

(** Four tickers, two of them eligible. *)
Lemma top_symbols_selected_witness :
  length (Universe.getTopSymbols (H:=Sample.runtime) BootSample.sortBy 100
            BootSample.tickers)
  = Nat.min 100 (length (eligible BootSample.tickers)).
Proof.
  apply (@top_symbols_selected Sample.runtime BootSample.sortBy
           (@sortBy_permutes Universe.Ticker24h) 100 BootSample.tickers).
Defined.

(** A batch of two, completing in either order. *)
Lemma backfill_order_irrelevant_witness :
  Rsi.closePrices
    (RsiBoot.state (RsiBoot.preloadBatch (H:=Sample.runtime) BootSample.responses
                      ["btcusdt"; "ethusdt"] RsiBoot.initial))
  = Rsi.closePrices
      (RsiBoot.state (RsiBoot.preloadBatch (H:=Sample.runtime) BootSample.responses
                        ["ethusdt"; "btcusdt"] RsiBoot.initial)).
Proof.
  apply (@backfill_order_irrelevant Sample.runtime BootSample.responses
           ["btcusdt"; "ethusdt"] ["ethusdt"; "btcusdt"]
           RsiBoot.initial VolumeBoot.initial).
  apply perm_swap.
Defined.

(** A start-up that goes through. *)
Lemma stream_opens_iff_witness :
  RsiBoot.stream RsiBoot.initial = None
  ∧ RsiBoot.stream
      (RsiBoot.main (H:=Sample.runtime) BootSample.sortBy (inr BootSample.tickers)
         BootSample.responses true RsiBoot.initial)
    = Some (RsiBoot.buildCombinedStreamUrl
              (Universe.getTopSymbols (H:=Sample.runtime) BootSample.sortBy 100
                 BootSample.tickers)).
Proof.
  split; [reflexivity|].
  apply (@stream_opens_iff Sample.runtime BootSample.sortBy (inr BootSample.tickers)
           BootSample.responses true RsiBoot.initial VolumeBoot.initial);
    reflexivity.
Defined.

(** A start-up and three events. *)
Lemma windows_bounded_from_boot_witness :
  bounded 100
    (Rsi.closePrices
       (RsiBoot.loop (H:=Sample.runtime)
          [RsiBoot.Message "btc-closed"; RsiBoot.Timer true; RsiBoot.Message "not json"]
          (RsiBoot.state
             (RsiBoot.main (H:=Sample.runtime) BootSample.sortBy
                (inr BootSample.tickers) BootSample.responses true RsiBoot.initial)))).
Proof.
  apply (@windows_bounded_from_boot Sample.runtime BootSample.sortBy
           (inr BootSample.tickers) BootSample.responses BootSample.responses true
           [RsiBoot.Message "btc-closed"; RsiBoot.Timer true; RsiBoot.Message "not json"]).
  - intros s rows. apply sample_responses_short. lia.
  - intros s rows. apply sample_responses_short. lia.
Defined.

(** The selection on the four tickers, and the windows after start-up. *)
Example sample_top_symbols :
  Universe.getTopSymbols (H:=Sample.runtime) BootSample.sortBy 100 BootSample.tickers
  = ["ethusdt"; "btcusdt"].
Proof. vm_compute. reflexivity. Qed.

Example sample_boot_windows :
  Rsi.closePrices
    (RsiBoot.state
       (RsiBoot.main (H:=Sample.runtime) BootSample.sortBy (inr BootSample.tickers)
          BootSample.responses true RsiBoot.initial)) !! "btcusdt"
  = Some [10; 11]%float.
Proof. vm_compute. reflexivity. Qed.
